(** * auth-actions-rate-limiter: a shallow embedding of the core modules

    Modules embedded here:
    - [Types]        : src/core/types.ts (records and enums);
    - [Decision]     : src/core/decision.ts (combineRuleResults, createErrorDecision);
    - [TokenBucket]  : src/core/tokenBucket.ts (refill, consume, retry-after);
    - [KeyBuilder]   : src/core/keyBuilder.ts (buildKey, parseKey, sanitizeValue);
    - [MemoryStoreM] : src/stores/memoryStore.ts (the Map-backed store);
    - [Engine]       : src/core/policyEngine.ts (check, evaluatePolicy, evaluateRule).

    JavaScript [number]s that may be fractional (tokens, timestamps, TTLs) are
    modelled as rationals [Q]; [retryAfterMs], always produced by [Math.ceil],
    [Number.MAX_SAFE_INTEGER] or a literal, is modelled as [Z].  A JavaScript
    [Map] (and a plain object used as a record of strings) keeps insertion
    order, so it is modelled as an association list with in-place update. *)

From Stdlib Require Import ZArith QArith Qround Qminmax Lqa Ascii String List Bool Lia Permutation Sorted.
Import ListNotations.
Open Scope string_scope.

(* ------------------------------------------------------------------ *)
(** ** Shared helpers: JS records of strings as ordered association lists *)

Module Assoc.

(** [obj[k] = v] on a plain object / [map.set(k, v)] on a Map: an existing
    key keeps its position, a new key is appended. *)
Fixpoint rset {V : Type} (k : string) (v : V) (m : list (string * V)) : list (string * V) :=
  match m with
  | [] => [(k, v)]
  | (k', v') :: rest =>
      if String.eqb k k' then (k, v) :: rest else (k', v') :: rset k v rest
  end.

Fixpoint rget {V : Type} (k : string) (m : list (string * V)) : option V :=
  match m with
  | [] => None
  | (k', v') :: rest => if String.eqb k k' then Some v' else rget k rest
  end.

(** [map.delete(k)] *)
Definition rdel {V : Type} (k : string) (m : list (string * V)) : list (string * V) :=
  filter (fun kv => negb (String.eqb k (fst kv))) m.

End Assoc.

(* ------------------------------------------------------------------ *)
(** ** src/core/types.ts *)

Module Types.

Inductive DecisionOutcome := ALLOWED | BLOCKED | CHALLENGE.

Definition outcome_eqb (a b : DecisionOutcome) : bool :=
  match a, b with
  | ALLOWED, ALLOWED | BLOCKED, BLOCKED | CHALLENGE, CHALLENGE => true
  | _, _ => false
  end.

Inductive FailMode := open | closed.

Inductive RuleMode := Block | Challenge.

Inductive KeyDimension := ip | emailHash | phoneHash | userId | sessionId | action | route.

Record RuleResult := mkRuleResult {
  ruleName : string;
  key : string;
  allowed : bool;
  outcome : DecisionOutcome;
  retryAfterMs : Z;
  remainingTokens : Q;
  challenge : option string
}.

Record RateLimitDecision := mkDecision {
  d_allowed : bool;
  d_action : string;
  d_outcome : DecisionOutcome;
  d_retryAfterMs : Z;
  d_ruleResults : list RuleResult;
  d_keys : list (string * string);
  d_challenge : option string;
  d_failedDueToError : option bool
}.

Record TokenBucketState := mkBucket {
  tokens : Q;
  lastRefillTime : Q;
  createdAt : Q;
  expiresAt : Q
}.

Record ConsumeResult := mkConsume {
  c_allowed : bool;
  c_remainingTokens : Q;
  c_retryAfterMs : Z;
  c_bucketState : TokenBucketState
}.

Record RateLimitRule := mkRule {
  r_name : string;
  r_key : list KeyDimension;
  r_capacity : Q;
  r_refillTokens : Q;
  r_refillIntervalMs : Q;
  r_cost : option Q;
  r_mode : option RuleMode;
  r_ttlMs : option Q
}.

Record ActionPolicy := mkPolicy {
  p_id : string;
  p_rules : list RateLimitRule;
  p_failMode : FailMode
}.

(** A JavaScript [Error]: only its message is observed. *)
Record Error := mkError { message : string }.

End Types.

Import Types.

(* ------------------------------------------------------------------ *)
(** ** src/core/decision.ts *)

Module Decision.

(** JavaScript truthiness of a [string | undefined]. *)
Definition truthy (s : option string) : bool :=
  match s with
  | Some v => negb (String.eqb v "")
  | None => false
  end.

(** The mutable locals of the scan loop of [combineRuleResults]. *)
Record Scan := mkScan {
  hasBlock : bool;
  hasChallenge : bool;
  maxRetryAfterMs : Z;
  challengeHint : option string
}.

Definition scan_step (s : Scan) (result : RuleResult) : Scan :=
  match outcome result with
  | BLOCKED =>
      mkScan true (hasChallenge s) (Z.max (maxRetryAfterMs s) (retryAfterMs result))
             (challengeHint s)
  | CHALLENGE =>
      mkScan (hasBlock s) true (maxRetryAfterMs s)
             (if truthy (challengeHint s) then challengeHint s else challenge result)
  | ALLOWED => s
  end.

Definition scan0 : Scan := mkScan false false 0 None.

Definition combineRuleResults (action : string) (ruleResults : list RuleResult)
    (keys : list (string * string)) : RateLimitDecision :=
  match ruleResults with
  | [] => mkDecision true action ALLOWED 0 [] keys None None
  | _ =>
      let s := fold_left scan_step ruleResults scan0 in
      let '(outcome, allowed) :=
        if hasBlock s then (BLOCKED, false)
        else if hasChallenge s then (CHALLENGE, true)
        else (ALLOWED, true) in
      mkDecision allowed action outcome (maxRetryAfterMs s) ruleResults keys
        (if truthy (challengeHint s) then challengeHint s else None) None
  end.

Definition createErrorDecision (action : string) (failMode : FailMode) (error : Error)
    : RateLimitDecision :=
  let allowed := match failMode with open => true | closed => false end in
  let outcome := if allowed then ALLOWED else BLOCKED in
  mkDecision allowed action outcome (if allowed then 0 else 60000)
    [mkRuleResult "store_error" "error" allowed outcome (if allowed then 0 else 60000) 0
       (Some ("Store error: " ++ message error))]
    [] None (Some true).

Definition createAllowedDecision (action : string) : RateLimitDecision :=
  mkDecision true action ALLOWED 0 [] [] None None.

Definition createMissingDimensionDecision (action ruleName : string)
    (missingDimensions : list string) (failMode : FailMode) : RateLimitDecision :=
  let allowed := match failMode with open => true | closed => false end in
  let outcome := if allowed then ALLOWED else BLOCKED in
  mkDecision allowed action outcome 0
    [mkRuleResult ruleName "missing_dimensions" allowed outcome 0 0
       (Some ("Missing dimensions: " ++ String.concat ", " missingDimensions))]
    [] None (Some true).

Definition createBlockedDecision (action : string) (retryAfterMs : Z) (reason : string)
    : RateLimitDecision :=
  mkDecision false action BLOCKED retryAfterMs
    [mkRuleResult "manual_block" "manual" false BLOCKED retryAfterMs 0 (Some reason)]
    [] None None.

(** The object [formatDecisionForLogging] returns. *)
Record LoggedDecision := mkLogged {
  l_allowed : bool;
  l_action : string;
  l_outcome : DecisionOutcome;
  l_retryAfterMs : Z;
  ruleCount : nat;
  failedRules : list string;
  l_challenge : option string;
  l_failedDueToError : option bool
}.

Definition formatDecisionForLogging (decision : RateLimitDecision) : LoggedDecision :=
  mkLogged (d_allowed decision) (d_action decision) (d_outcome decision)
    (d_retryAfterMs decision) (length (d_ruleResults decision))
    (map ruleName (filter (fun r => negb (allowed r)) (d_ruleResults decision)))
    (d_challenge decision) (d_failedDueToError decision).

(** Reading of the claims about combining, written from their words. *)
Definition is_blocked (r : RuleResult) : bool := outcome_eqb (outcome r) BLOCKED.
Definition is_challenge (r : RuleResult) : bool := outcome_eqb (outcome r) CHALLENGE.

Fixpoint max_list (d : Z) (l : list Z) : Z :=
  match l with
  | [] => d
  | x :: rest => Z.max x (max_list d rest)
  end.

(** maximum of the BLOCKED results' retryAfterMs (a non-empty list) *)
Definition max_blocked_retry (rs : list RuleResult) : Z :=
  match map retryAfterMs (filter is_blocked rs) with
  | [] => 0
  | x :: rest => max_list x rest
  end.

(** first non-empty challenge hint among CHALLENGE results, in list order *)
Fixpoint first_hint (rs : list RuleResult) : option string :=
  match rs with
  | [] => None
  | r :: rest =>
      if is_challenge r && truthy (challenge r) then challenge r else first_hint rest
  end.

End Decision.

(* ------------------------------------------------------------------ *)
(** ** src/core/tokenBucket.ts *)

Module TokenBucket.

Record TokenBucketConfig := mkConfig {
  capacity : Q;
  refillTokens : Q;
  refillIntervalMs : Q
}.

(** [Number.MAX_SAFE_INTEGER] *)
Definition MAX_SAFE_INTEGER : Z := 9007199254740991.

(** [Math.min(a, b)] *)
Definition js_min (a b : Q) : Q := if Qle_bool a b then a else b.

Definition calculateRefillTokens (elapsedMs : Q) (config : TokenBucketConfig) : Q :=
  if Qle_bool elapsedMs 0 || Qle_bool (refillIntervalMs config) 0 then 0
  else let intervals := elapsedMs / refillIntervalMs config in
       intervals * refillTokens config.

Definition refillBucket (state : TokenBucketState) (config : TokenBucketConfig)
    (currentTime : Q) : TokenBucketState :=
  let elapsedMs := currentTime - lastRefillTime state in
  if Qle_bool elapsedMs 0 then state
  else
    let tokensToAdd := calculateRefillTokens elapsedMs config in
    let newTokens := js_min (capacity config) (tokens state + tokensToAdd) in
    {| tokens := newTokens; lastRefillTime := currentTime;
       createdAt := createdAt state; expiresAt := expiresAt state |}.

Definition createBucket (config : TokenBucketConfig) (currentTime ttlMs : Q)
    : TokenBucketState :=
  {| tokens := capacity config; lastRefillTime := currentTime;
     createdAt := currentTime; expiresAt := currentTime + ttlMs |}.

Definition calculateRetryAfterMs (tokensNeeded : Q) (config : TokenBucketConfig) : Z :=
  if Qle_bool tokensNeeded 0 then 0%Z
  else if Qle_bool (refillTokens config) 0 || Qle_bool (refillIntervalMs config) 0
  then MAX_SAFE_INTEGER
  else
    let intervalsNeeded := tokensNeeded / refillTokens config in
    Qceiling (intervalsNeeded * refillIntervalMs config).

Definition consumeTokens (state : TokenBucketState) (config : TokenBucketConfig)
    (cost currentTime ttlMs : Q) : ConsumeResult :=
  let refilledState := refillBucket state config currentTime in
  if Qle_bool cost (tokens refilledState) then
    let newState :=
      {| tokens := tokens refilledState - cost;
         lastRefillTime := lastRefillTime refilledState;
         createdAt := createdAt refilledState;
         expiresAt := currentTime + ttlMs |} in
    mkConsume true (tokens newState) 0 newState
  else
    let tokensNeeded := cost - tokens refilledState in
    let retryAfterMs := calculateRetryAfterMs tokensNeeded config in
    let updatedState :=
      {| tokens := tokens refilledState;
         lastRefillTime := lastRefillTime refilledState;
         createdAt := createdAt refilledState;
         expiresAt := currentTime + ttlMs |} in
    mkConsume false (tokens refilledState) retryAfterMs updatedState.

Definition ruleToConfig (rule : RateLimitRule) : TokenBucketConfig :=
  mkConfig (r_capacity rule) (r_refillTokens rule) (r_refillIntervalMs rule).

(** [Math.ceil((capacity / refillTokens) * refillIntervalMs * 2)]; a zero
    [refillTokens] divides to [0] in [Q] where JavaScript gives [Infinity]
    (no claim below depends on that case). *)
Definition calculateDefaultTtl (rule : RateLimitRule) : Q :=
  match r_ttlMs rule with
  | Some t => t
  | None =>
      let fullRefillTime := (r_capacity rule / r_refillTokens rule) * r_refillIntervalMs rule in
      inject_Z (Qceiling (fullRefillTime * 2))
  end.

Definition isBucketExpired (state : TokenBucketState) (currentTime : Q) : bool :=
  Qle_bool (expiresAt state) currentTime.

End TokenBucket.

(* ------------------------------------------------------------------ *)
(** ** src/core/keyBuilder.ts *)

Module KeyBuilder.

Local Open Scope nat_scope.
Local Open Scope string_scope.

(** [KEY_SEPARATOR] and [VALUE_SEPARATOR] *)
Definition KEY_SEPARATOR : Ascii.ascii := ":"%char.
Definition VALUE_SEPARATOR : Ascii.ascii := "="%char.

(** The request context: the well-known dimension fields of [RequestContext]. *)
Record RequestContext := mkContext {
  ctx_action : string;
  ctx_ip : option string;
  ctx_emailHash : option string;
  ctx_phoneHash : option string;
  ctx_userId : option string;
  ctx_sessionId : option string;
  ctx_route : option string
}.

(** The string of a [KeyDimension] tag, as written into keys. *)
Definition dimensionName (d : KeyDimension) : string :=
  match d with
  | ip => "ip" | emailHash => "emailHash" | phoneHash => "phoneHash"
  | userId => "userId" | sessionId => "sessionId" | action => "action"
  | route => "route"
  end.

(** [DefaultKeyExtractor.extract] *)
Definition defaultExtract (dimension : KeyDimension) (context : RequestContext)
    : option string :=
  match dimension with
  | ip => ctx_ip context
  | emailHash => ctx_emailHash context
  | phoneHash => ctx_phoneHash context
  | userId => ctx_userId context
  | sessionId => ctx_sessionId context
  | action => Some (ctx_action context)
  | route => ctx_route context
  end.

(** [value.replace(/[:=]/g, '_')] *)
Fixpoint sanitizeValue (value : string) : string :=
  match value with
  | EmptyString => EmptyString
  | String c rest =>
      String (if Ascii.eqb c KEY_SEPARATOR || Ascii.eqb c VALUE_SEPARATOR
              then "_"%char else c)
             (sanitizeValue rest)
  end.

(** [parts.join(KEY_SEPARATOR)] *)
Definition join (parts : list string) : string :=
  String.concat (String KEY_SEPARATOR EmptyString) parts.

Definition Extractor := KeyDimension -> RequestContext -> option string.

(** The loop of [buildKey] over [rule.key]: the pushed parts, or [None] on the
    early [return undefined]. *)
Fixpoint buildParts (extractor : Extractor) (context : RequestContext)
    (dims : list KeyDimension) : option (list string) :=
  match dims with
  | [] => Some []
  | dimension :: rest =>
      match extractor dimension context with
      | None => None
      | Some value =>
          if String.eqb value "" then None
          else
            match buildParts extractor context rest with
            | None => None
            | Some ps =>
                Some ((dimensionName dimension ++ String VALUE_SEPARATOR EmptyString
                       ++ sanitizeValue value) :: ps)
            end
      end
  end.

Definition buildKey (action : string) (rule : RateLimitRule) (context : RequestContext)
    (extractor : Extractor) : option string :=
  match buildParts extractor context (r_key rule) with
  | None => None
  | Some ps => Some (join (action :: r_name rule :: ps))
  end.

(** [key.split(KEY_SEPARATOR)] *)
Fixpoint split (c : Ascii.ascii) (s : string) : list string :=
  match s with
  | EmptyString => [EmptyString]
  | String a rest =>
      if Ascii.eqb a c then EmptyString :: split c rest
      else match split c rest with
           | [] => [String a EmptyString]
           | h :: t => String a h :: t
           end
  end.

(** [part.indexOf(c)], [None] for [-1] *)
Fixpoint indexOf (c : Ascii.ascii) (s : string) : option nat :=
  match s with
  | EmptyString => None
  | String a rest =>
      if Ascii.eqb a c then Some O
      else option_map S (indexOf c rest)
  end.

(** [s.substring(0, n)] and [s.substring(n)] for [n <= s.length] *)
Fixpoint take (n : nat) (s : string) : string :=
  match n, s with
  | 0, _ | _, EmptyString => EmptyString
  | S n', String a rest => String a (take n' rest)
  end.

Fixpoint drop (n : nat) (s : string) : string :=
  match n, s with
  | 0, _ => s
  | _, EmptyString => EmptyString
  | S n', String _ rest => drop n' rest
  end.

Record ParsedKey := mkParsed {
  pk_action : string;
  pk_ruleName : string;
  pk_dimensions : list (string * string)
}.

(** The loop [for (let i = 2; i < parts.length; i++)] of [parseKey]. *)
Definition parseDimension (dimensions : list (string * string)) (part : string)
    : list (string * string) :=
  if String.eqb part "" then dimensions
  else match indexOf VALUE_SEPARATOR part with
       | None => dimensions
       | Some eqIndex =>
           let dimName := take eqIndex part in
           let dimValue := drop (S eqIndex) part in
           if String.eqb dimName "" then dimensions
           else Assoc.rset dimName dimValue dimensions
       end.

Definition parseKey (key : string) : option ParsedKey :=
  let parts := split KEY_SEPARATOR key in
  if Nat.ltb (length parts) 2 then None
  else
    let action := nth 0 parts "" in
    let ruleName := nth 1 parts "" in
    if String.eqb action "" || String.eqb ruleName "" then None
    else Some (mkParsed action ruleName (fold_left parseDimension (skipn 2 parts) [])).

Definition dimensionValue (extractor : Extractor) (context : RequestContext)
    (d : KeyDimension) : string :=
  match extractor d context with Some v => v | None => "" end.

(** The dimension-to-value mapping a key embeds: each declared dimension
    with its sanitized value, in the record-assignment order of [buildKey]. *)
Fixpoint embeddedDimensions (extractor : Extractor) (context : RequestContext)
    (dims : list KeyDimension) (acc : list (string * string)) : list (string * string) :=
  match dims with
  | [] => acc
  | d :: rest =>
      let v := dimensionValue extractor context d in
      embeddedDimensions extractor context rest
        (Assoc.rset (dimensionName d) (sanitizeValue v) acc)
  end.

(** [buildKeysForRules]: a [Map] from rule name to key (or [undefined]). *)
Definition buildKeysForRules (action : string) (rules : list RateLimitRule)
    (context : RequestContext) (extractor : Extractor) : list (string * option string) :=
  fold_left (fun keys rule => Assoc.rset (r_name rule) (buildKey action rule context extractor) keys)
    rules [].

(** [maskHash]: [hash.substring(0, 8) + '...'] beyond 8 characters. *)
Definition maskHash (hash : string) : string :=
  if Nat.leb (String.length hash) 8 then hash else take 8 hash ++ "...".

(** The loop body of [extractDimensionsForLogging]. *)
Definition logDimension (context : RequestContext) (result : list (string * string))
    (dim : KeyDimension) : list (string * string) :=
  match defaultExtract dim context with
  | None => result
  | Some value =>
      match dim with
      | emailHash | phoneHash => Assoc.rset (dimensionName dim) (maskHash value) result
      | _ => Assoc.rset (dimensionName dim) value result
      end
  end.

Definition extractDimensionsForLogging (context : RequestContext) (dimensions : list KeyDimension)
    : list (string * string) :=
  fold_left (logDimension context) dimensions [].

(** [validateDimensions]: the loop pushing every missing dimension. *)
Fixpoint validateDimensions (context : RequestContext) (dimensions : list KeyDimension)
    (extractor : Extractor) : list KeyDimension :=
  match dimensions with
  | [] => []
  | dim :: rest =>
      let value := extractor dim context in
      match value with
      | None => dim :: validateDimensions context rest extractor
      | Some v =>
          if String.eqb v "" then dim :: validateDimensions context rest extractor
          else validateDimensions context rest extractor
      end
  end.

(** A dimension value is missing: absent or the empty string. *)
Definition missing (v : option string) : bool :=
  match v with None => true | Some s => String.eqb s "" end.

(** [s.includes(c)] *)
Fixpoint hasChar (c : Ascii.ascii) (s : string) : bool :=
  match s with
  | EmptyString => false
  | String a rest => Ascii.eqb a c || hasChar c rest
  end.

(** The components [buildKey] writes unsanitized (the action and the rule
    name) are non-empty and free of the key separator. *)
Definition wellFormedKeyParts (action ruleName : string) : bool :=
  negb (String.eqb action "") && negb (String.eqb ruleName "") &&
  negb (hasChar KEY_SEPARATOR action) && negb (hasChar KEY_SEPARATOR ruleName).

End KeyBuilder.

(* ------------------------------------------------------------------ *)
(** ** src/stores/memoryStore.ts *)

Module MemoryStoreM.

Record MemoryStoreOptions := mkOptions {
  sweepIntervalMs : Q;
  highWaterMark : Z;
  evictionCount : Z
}.

Definition DEFAULT_OPTIONS : MemoryStoreOptions := mkOptions 60000 100000 10000.

Record StoreEntry := mkEntry {
  state : TokenBucketState;
  lastAccessedAt : Q
}.

(** The fields of a [MemoryStore] instance; [sweepTimer] records whether the
    interval timer is installed. *)
Record MemoryStore := mkStore {
  store : list (string * StoreEntry);
  options : MemoryStoreOptions;
  sweepTimer : bool;
  isShutdown : bool
}.

Definition with_store (ms : MemoryStore) (s : list (string * StoreEntry)) : MemoryStore :=
  mkStore s (options ms) (sweepTimer ms) (isShutdown ms).

(** [constructor]: the sweeper is installed iff [sweepIntervalMs > 0]. *)
Definition newMemoryStore (opts : MemoryStoreOptions) : MemoryStore :=
  mkStore [] opts (negb (Qle_bool (sweepIntervalMs opts) 0)) false.

Definition shutdownError : Error := mkError "MemoryStore has been shutdown".

(** An operation's outcome: the thrown error or the returned value, and the
    store after the call. *)
Definition Outcome (A : Type) : Type := ((Error + A) * MemoryStore)%type.

Definition expired (now : Q) (e : StoreEntry) : bool := Qle_bool (expiresAt (state e)) now.

Definition get (key : string) (now : Q) (ms : MemoryStore) : Outcome (option TokenBucketState) :=
  if isShutdown ms then (inl shutdownError, ms)
  else match Assoc.rget key (store ms) with
       | None => (inr None, ms)
       | Some entry =>
           if expired now entry then (inr None, with_store ms (Assoc.rdel key (store ms)))
           else (inr (Some (state entry)),
                 with_store ms (Assoc.rset key (mkEntry (state entry) now) (store ms)))
       end.

(** Phase 1 of [evictEntries]: the [for ... of this.store] loop deleting
    expired entries while [this.store.size > targetSize]; [size] is the
    current size of the whole map. *)
Fixpoint evictPhase1 (now : Q) (targetSize size : Z) (l : list (string * StoreEntry))
    : list (string * StoreEntry) :=
  match l with
  | [] => []
  | (k, e) :: rest =>
      if (size <=? targetSize)%Z then l
      else if expired now e then evictPhase1 now targetSize (size - 1)%Z rest
      else (k, e) :: evictPhase1 now targetSize size rest
  end.

(** [Array.prototype.sort] with [(a, b) => a[1].lastAccessedAt - b[1].lastAccessedAt]
    (stable), as an insertion sort. *)
Fixpoint insertByAccess (x : string * StoreEntry) (l : list (string * StoreEntry))
    : list (string * StoreEntry) :=
  match l with
  | [] => [x]
  | y :: rest =>
      if Qle_bool (lastAccessedAt (snd x)) (lastAccessedAt (snd y)) then x :: y :: rest
      else y :: insertByAccess x rest
  end.

Definition sortByAccess (l : list (string * StoreEntry)) : list (string * StoreEntry) :=
  fold_right insertByAccess [] l.

Definition evictEntries (now : Q) (opts : MemoryStoreOptions) (s : list (string * StoreEntry))
    : list (string * StoreEntry) :=
  let targetSize := (highWaterMark opts - evictionCount opts)%Z in
  let s1 := evictPhase1 now targetSize (Z.of_nat (length s)) s in
  if (targetSize <? Z.of_nat (length s1))%Z then
    let entries := sortByAccess s1 in
    let toEvict := (Z.of_nat (length s1) - targetSize)%Z in
    fold_left (fun m e => Assoc.rdel (fst e) m) (firstn (Z.to_nat toEvict) entries) s1
  else s1.

Definition set (key : string) (st : TokenBucketState) (_ttlMs : Q) (now : Q)
    (ms : MemoryStore) : Outcome unit :=
  if isShutdown ms then (inl shutdownError, ms)
  else match Assoc.rget key (store ms) with
       | Some _ => (inr tt, with_store ms (Assoc.rset key (mkEntry st now) (store ms)))
       | None =>
           let s := if (highWaterMark (options ms) <=? Z.of_nat (length (store ms)))%Z
                    then evictEntries now (options ms) (store ms) else store ms in
           (inr tt, with_store ms (Assoc.rset key (mkEntry st now) s))
       end.

Definition delete (key : string) (ms : MemoryStore) : Outcome unit :=
  if isShutdown ms then (inl shutdownError, ms)
  else (inr tt, with_store ms (Assoc.rdel key (store ms))).

Definition has (key : string) (now : Q) (ms : MemoryStore) : Outcome bool :=
  if isShutdown ms then (inl shutdownError, ms)
  else match Assoc.rget key (store ms) with
       | None => (inr false, ms)
       | Some entry =>
           if expired now entry then (inr false, with_store ms (Assoc.rdel key (store ms)))
           else (inr true, ms)
       end.

Definition size (ms : MemoryStore) : Outcome nat :=
  if isShutdown ms then (inl shutdownError, ms) else (inr (length (store ms)), ms).

Definition clear (ms : MemoryStore) : Outcome unit :=
  if isShutdown ms then (inl shutdownError, ms) else (inr tt, with_store ms []).

Definition shutdown (ms : MemoryStore) : Outcome unit :=
  if isShutdown ms then (inr tt, ms)
  else (inr tt, mkStore [] (options ms) false true).

(** The timer callback [sweep]. *)
Definition sweep (now : Q) (ms : MemoryStore) : MemoryStore :=
  if isShutdown ms then ms
  else with_store ms (filter (fun kv => negb (expired now (snd kv))) (store ms)).

(** The object [getStats] returns; [utilizationPercent] is
    [(size / highWaterMark) * 100] (a [highWaterMark] of [0], where
    JavaScript divides to [NaN] or [Infinity], divides to [0] in [Q]). *)
Record Stats := mkStats {
  st_size : nat;
  st_highWaterMark : Z;
  utilizationPercent : Q
}.

Definition getStats (ms : MemoryStore) : Stats :=
  let size := length (store ms) in
  mkStats size (highWaterMark (options ms))
    (inject_Z (Z.of_nat size) / inject_Z (highWaterMark (options ms)) * 100).

(** The public operations (and the timer-driven sweep) as one step function. *)
Inductive Op :=
| OpGet (key : string) (now : Q)
| OpSet (key : string) (st : TokenBucketState) (ttlMs : Q) (now : Q)
| OpDelete (key : string)
| OpHas (key : string) (now : Q)
| OpSize
| OpClear
| OpShutdown
| OpSweep (now : Q).

Inductive Ret :=
| RState (v : option TokenBucketState)
| RUnit
| RBool (b : bool)
| RNat (n : nat).

Definition lift {A : Type} (f : A -> Ret) (o : Outcome A) : (Error + Ret) * MemoryStore :=
  match o with
  | (inl e, ms) => (inl e, ms)
  | (inr a, ms) => (inr (f a), ms)
  end.

Definition step (op : Op) (ms : MemoryStore) : (Error + Ret) * MemoryStore :=
  match op with
  | OpGet k now => lift RState (get k now ms)
  | OpSet k st t now => lift (fun _ => RUnit) (set k st t now ms)
  | OpDelete k => lift (fun _ => RUnit) (delete k ms)
  | OpHas k now => lift RBool (has k now ms)
  | OpSize => lift RNat (size ms)
  | OpClear => lift (fun _ => RUnit) (clear ms)
  | OpShutdown => lift (fun _ => RUnit) (shutdown ms)
  | OpSweep now => (inr RUnit, sweep now ms)
  end.

Fixpoint run (ops : list Op) (ms : MemoryStore) : list (Error + Ret) * MemoryStore :=
  match ops with
  | [] => ([], ms)
  | op :: rest =>
      let '(r, ms1) := step op ms in
      let '(rs, ms2) := run rest ms1 in
      (r :: rs, ms2)
  end.

(** The operations that check for shutdown (all public ones but [shutdown]). *)
Definition checksShutdown (op : Op) : bool :=
  match op with
  | OpShutdown | OpSweep _ => false
  | _ => true
  end.

End MemoryStoreM.

(* ------------------------------------------------------------------ *)
(** ** src/core/policyEngine.ts *)

Module Engine.

Import KeyBuilder TokenBucket Decision.

Section EngineDefs.

(** The engine talks to any [RateLimitStore]: its state is abstract, and its
    [get] and [set] may throw (the [inl] branch); the time provider reads the
    clock of the same world. *)
Context {St : Type}.
Variable storeGet : string -> St -> (Error + option TokenBucketState) * St.
Variable storeSet : string -> TokenBucketState -> Q -> St -> (Error + unit) * St.
Variable getTime : St -> Q.
Variable keyExtractor : Extractor.
Variable policies : string -> option ActionPolicy.

(** An [async] computation that may throw: state passing with errors. *)
Definition M (A : Type) : Type := St -> (Error + A) * St.

Definition ret {A : Type} (a : A) : M A := fun s => (inr a, s).

Definition bind {A B : Type} (m : M A) (k : A -> M B) : M B :=
  fun s => match m s with
           | (inl e, s1) => (inl e, s1)
           | (inr a, s1) => k a s1
           end.

Local Notation "x <- m ;; k" := (bind m (fun x => k)) (at level 61, m at next level, right associativity).

Definition now_ : M Q := fun s => (inr (getTime s), s).

Definition evaluateRule (rule : RateLimitRule) (context : RequestContext)
    (policy : ActionPolicy) : M RuleResult :=
  match buildKey (p_id policy) rule context keyExtractor with
  | None =>
      ret (mkRuleResult (r_name rule) "skipped" true ALLOWED 0 (r_capacity rule) None)
  | Some key =>
      now <- now_ ;;
      let config := ruleToConfig rule in
      let ttlMs := calculateDefaultTtl rule in
      let cost := match r_cost rule with Some c => c | None => 1 end in
      bucketState <- storeGet key ;;
      let bucketState :=
        match bucketState with
        | Some b => if isBucketExpired b now then createBucket config now ttlMs else b
        | None => createBucket config now ttlMs
        end in
      let consumeResult := consumeTokens bucketState config cost now ttlMs in
      _ <- storeSet key (c_bucketState consumeResult) ttlMs ;;
      let mode := match r_mode rule with Some m => m | None => Block end in
      let '(outcome, challenge) :=
        if c_allowed consumeResult then (ALLOWED, None)
        else match mode with
             | Challenge => (CHALLENGE, Some "captcha_required")
             | Block => (BLOCKED, None)
             end in
      ret (mkRuleResult (r_name rule) key (c_allowed consumeResult) outcome
             (c_retryAfterMs consumeResult) (c_remainingTokens consumeResult) challenge)
  end.

(** The [for (const rule of policy.rules)] loop of [evaluatePolicy]. *)
Fixpoint evaluateRules (rules : list RateLimitRule) (context : RequestContext)
    (policy : ActionPolicy) (ruleResults : list RuleResult)
    (keys : list (string * string)) : M (list RuleResult * list (string * string)) :=
  match rules with
  | [] => ret (ruleResults, keys)
  | rule :: rest =>
      result <- evaluateRule rule context policy ;;
      let keys := if String.eqb (key result) "skipped" then keys
                  else Assoc.rset (r_name rule) (key result) keys in
      evaluateRules rest context policy (ruleResults ++ [result]) keys
  end.

Definition evaluatePolicy (policy : ActionPolicy) (context : RequestContext)
    : M RateLimitDecision :=
  acc <- evaluateRules (p_rules policy) context policy [] [] ;;
  ret (combineRuleResults (p_id policy) (fst acc) (snd acc)).

(** [check] returns a decision and never throws: its type has no error branch. *)
Definition check (context : RequestContext) (s : St) : RateLimitDecision * St :=
  let action := ctx_action context in
  match policies action with
  | None => (createAllowedDecision action, s)
  | Some policy =>
      match evaluatePolicy policy context s with
      | (inr d, s1) => (d, s1)
      | (inl err, s1) => (createErrorDecision action (p_failMode policy) err, s1)
      end
  end.

End EngineDefs.

End Engine.

(* ------------------------------------------------------------------ *)
(** ** src/utils/time.ts and src/middleware/express.ts *)

Module Express.

Import KeyBuilder Decision Engine.

(** [msToSeconds]: [Math.ceil(ms / 1000)]. *)
Definition msToSeconds (ms : Q) : Z := Qceiling (ms / 1000).

Record RateLimitErrorResponse := mkErrorResponse {
  e_error : string;
  e_action : string;
  e_retryAfterMs : Z;
  e_outcome : DecisionOutcome;
  e_challenge : option string
}.

(** What the handler of [forAction] does with a request: answer [429] with
    the [Retry-After] header (the number written by [toString]) and a JSON
    body, or call [next()], with the [X-RateLimit-Challenge] header when set. *)
Inductive HandlerResult :=
| Respond429 (retryAfterHeader : Z) (body : RateLimitErrorResponse)
| Next (challengeHeader : option string).

(** The decision handling of [forAction], once [engine.check] returned. *)
Definition handleDecision (action : string) (decision : RateLimitDecision) : HandlerResult :=
  if negb (d_allowed decision) then
    let retryAfterSeconds := msToSeconds (inject_Z (d_retryAfterMs decision)) in
    Respond429 retryAfterSeconds
      (mkErrorResponse "RATE_LIMITED" action (d_retryAfterMs decision) (d_outcome decision)
         (if truthy (d_challenge decision) then d_challenge decision else None))
  else if outcome_eqb (d_outcome decision) CHALLENGE then
    Next (Some (match d_challenge decision with Some c => c | None => "required" end))
  else Next None.

(** The [catch] branch of [forAction]: the fail mode of [engine.getPolicy(action)],
    [closed] when there is no policy. *)
Definition catchResponse (action : string) (policy : option ActionPolicy) : HandlerResult :=
  let failMode := match policy with Some p => p_failMode p | None => closed end in
  match failMode with
  | open => Next None
  | closed => Respond429 60 (mkErrorResponse "RATE_LIMITED" action 60000 BLOCKED None)
  end.

(** The [forAction] handler after the [skip] test: build the context, run
    [engine.check], handle the decision. *)
Definition forActionHandler {St : Type} storeGet storeSet getTime keyExtractor
    (policies : string -> option ActionPolicy) (context : RequestContext) (s : St)
    : HandlerResult * St :=
  let '(decision, s1) := check storeGet storeSet getTime keyExtractor policies context s in
  (handleDecision (ctx_action context) decision, s1).

End Express.

(* ================================================================== *)
(** * Properties *)

(* ------------------------------------------------------------------ *)
(** ** Combining rule results *)

Module DecisionFacts.

Import Decision.

Lemma fold_scan_hasBlock : forall rs s,
  hasBlock (fold_left scan_step rs s) = hasBlock s || existsb is_blocked rs.
Proof.
  induction rs as [|r rest IH]; intros s; simpl.
  - now rewrite orb_false_r.
  - rewrite IH. unfold scan_step, is_blocked.
    destruct (outcome r); simpl; try rewrite orb_true_r; reflexivity.
Qed.

Lemma fold_scan_hasChallenge : forall rs s,
  hasChallenge (fold_left scan_step rs s) = hasChallenge s || existsb is_challenge rs.
Proof.
  induction rs as [|r rest IH]; intros s; simpl.
  - now rewrite orb_false_r.
  - rewrite IH. unfold scan_step, is_challenge.
    destruct (outcome r); simpl; try rewrite orb_true_r; reflexivity.
Qed.

Lemma fold_right_max_shift : forall l a b,
  fold_right Z.max (Z.max a b) l = Z.max a (fold_right Z.max b l).
Proof.
  induction l as [|x l IH]; intros a b; simpl; [reflexivity|].
  rewrite IH. lia.
Qed.

Lemma fold_left_max : forall l a, fold_left Z.max l a = fold_right Z.max a l.
Proof.
  induction l as [|x l IH]; intros a; simpl; [reflexivity|].
  rewrite IH, (Z.max_comm a x), fold_right_max_shift. reflexivity.
Qed.

Lemma max_list_fold : forall l d, max_list d l = fold_right Z.max d l.
Proof. induction l; simpl; intros; congruence. Qed.

Lemma fold_scan_max : forall rs s,
  maxRetryAfterMs (fold_left scan_step rs s) =
  fold_left Z.max (map retryAfterMs (filter is_blocked rs)) (maxRetryAfterMs s).
Proof.
  induction rs as [|r rest IH]; intros s; simpl; [reflexivity|].
  rewrite IH. unfold scan_step, is_blocked.
  destruct (outcome r); simpl; reflexivity.
Qed.

Lemma fold_scan_hint : forall rs s,
  (let h := challengeHint (fold_left scan_step rs s) in if truthy h then h else None) =
  (if truthy (challengeHint s) then challengeHint s else first_hint rs).
Proof.
  induction rs as [|r rest IH]; intros s; simpl.
  - destruct (truthy (challengeHint s)); reflexivity.
  - rewrite IH. unfold scan_step, is_challenge.
    destruct (outcome r) eqn:Ho; simpl; try reflexivity.
    destruct (truthy (challengeHint s)) eqn:Ht; simpl; [now rewrite Ht|].
    destruct (truthy (challenge r)); reflexivity.
Qed.

Lemma blocked_nonempty : forall rs, existsb is_blocked rs = true -> rs <> [].
Proof. intros [|r rs] H; simpl in *; congruence. Qed.

Lemma challenge_nonempty : forall rs, existsb is_challenge rs = true -> rs <> [].
Proof. intros [|r rs] H; simpl in *; congruence. Qed.

Lemma max_blocked_retry_fold : forall rs,
  existsb is_blocked rs = true ->
  fold_left Z.max (map retryAfterMs (filter is_blocked rs)) 0%Z = Z.max 0 (max_blocked_retry rs).
Proof.
  intros rs H. unfold max_blocked_retry.
  destruct (map retryAfterMs (filter is_blocked rs)) as [|x rest] eqn:E.
  - exfalso. apply existsb_exists in H as [r [Hin Hb]].
    assert (In (retryAfterMs r) (map retryAfterMs (filter is_blocked rs))).
    { apply in_map, filter_In; auto. }
    rewrite E in H; contradiction.
  - simpl. rewrite fold_left_max, max_list_fold, fold_right_max_shift. reflexivity.
Qed.

Lemma no_blocked_max : forall rs,
  existsb is_blocked rs = false ->
  fold_left Z.max (map retryAfterMs (filter is_blocked rs)) 0%Z = 0%Z.
Proof.
  intros rs H.
  assert (filter is_blocked rs = []) as ->; [|reflexivity].
  induction rs as [|r rs IH]; simpl in *; [reflexivity|].
  apply orb_false_iff in H as [H1 H2]. rewrite H1. auto.
Qed.

(** The blocked rule result used by the counterexample to C1. *)
Definition negRetryBlocked : RuleResult :=
  mkRuleResult "r" "k" false BLOCKED (-5) 0 None.

Lemma combine_fields : forall a rs k, rs <> [] ->
  let d := combineRuleResults a rs k in
  d_outcome d = (if existsb is_blocked rs then BLOCKED
                 else if existsb is_challenge rs then CHALLENGE else ALLOWED) /\
  d_allowed d = negb (existsb is_blocked rs) /\
  d_retryAfterMs d = fold_left Z.max (map retryAfterMs (filter is_blocked rs)) 0%Z /\
  d_challenge d = first_hint rs.
Proof.
  intros a rs k Hne d. subst d.
  destruct rs as [|r0 rs0]; [congruence|].
  unfold combineRuleResults. cbv beta iota zeta.
  pose proof (fold_scan_hasBlock (r0 :: rs0) scan0) as HB.
  pose proof (fold_scan_hasChallenge (r0 :: rs0) scan0) as HC.
  pose proof (fold_scan_max (r0 :: rs0) scan0) as HM.
  pose proof (fold_scan_hint (r0 :: rs0) scan0) as HH.
  cbv beta zeta in HH. cbn [hasBlock hasChallenge maxRetryAfterMs challengeHint scan0 orb truthy] in HB, HC, HM, HH.
  rewrite HH.
  destruct (hasBlock (fold_left scan_step (r0 :: rs0) scan0)); rewrite <- HB;
  [|destruct (hasChallenge (fold_left scan_step (r0 :: rs0) scan0)); rewrite <- HC];
  cbn - [fold_left map filter existsb first_hint]; rewrite HM; repeat split.
Qed.

(** C1 (counterexample): with a single BLOCKED result whose [retryAfterMs]
    is [-5], the decision's [retryAfterMs] is [0], not the maximum [-5] over
    the BLOCKED results: the scan starts its maximum at [0]. *)
Lemma C1_counterexample :
  d_outcome (combineRuleResults "a" [negRetryBlocked] []) = BLOCKED /\
  d_retryAfterMs (combineRuleResults "a" [negRetryBlocked] []) = 0%Z /\
  max_blocked_retry [negRetryBlocked] = (-5)%Z /\
  d_retryAfterMs (combineRuleResults "a" [negRetryBlocked] []) <>
    max_blocked_retry [negRetryBlocked].
Proof. vm_compute. repeat split; discriminate. Qed.

(** C1 (amended): [combineRuleResults] implements AND semantics, most
    restrictive wins.  Empty list: ALLOWED, allowed, retryAfterMs 0.  Some
    BLOCKED: BLOCKED, not allowed, retryAfterMs the maximum of 0 and the
    BLOCKED results' retryAfterMs (the plain maximum when those are
    non-negative).  Else some CHALLENGE: CHALLENGE, allowed, retryAfterMs 0,
    challenge the first non-empty hint of a CHALLENGE result in list order.
    Else ALLOWED, allowed, retryAfterMs 0. *)
Theorem C1_combine_amended : forall action rs keys,
  let d := combineRuleResults action rs keys in
  (rs = [] -> d_outcome d = ALLOWED /\ d_allowed d = true /\ d_retryAfterMs d = 0%Z) /\
  (existsb is_blocked rs = true ->
     d_outcome d = BLOCKED /\ d_allowed d = false /\
     d_retryAfterMs d = Z.max 0 (max_blocked_retry rs) /\
     ((forall r, In r rs -> is_blocked r = true -> (0 <= retryAfterMs r)%Z) ->
        d_retryAfterMs d = max_blocked_retry rs)) /\
  (existsb is_blocked rs = false -> existsb is_challenge rs = true ->
     d_outcome d = CHALLENGE /\ d_allowed d = true /\ d_retryAfterMs d = 0%Z /\
     d_challenge d = first_hint rs) /\
  (existsb is_blocked rs = false -> existsb is_challenge rs = false ->
     d_outcome d = ALLOWED /\ d_allowed d = true /\ d_retryAfterMs d = 0%Z).
Proof.
  intros action rs keys d. subst d.
  split; [intros ->; repeat split|].
  split; [|split].
  - intros Hb. pose proof (blocked_nonempty _ Hb) as Hne.
    destruct (combine_fields action rs keys Hne) as (Ho & Ha & Hr & _).
    rewrite Ho, Ha, Hr, Hb, max_blocked_retry_fold by exact Hb.
    repeat split. intros Hpos. apply Z.max_r.
    unfold max_blocked_retry.
    destruct (map retryAfterMs (filter is_blocked rs)) as [|x rest] eqn:E; [lia|].
    assert (Hx : In x (map retryAfterMs (filter is_blocked rs))) by (rewrite E; left; auto).
    apply in_map_iff in Hx as [r [Hrx Hin]]. apply filter_In in Hin as [Hin Hbr].
    specialize (Hpos r Hin Hbr). rewrite max_list_fold.
    assert (forall l y, (y <= fold_right Z.max y l)%Z) as Hge
      by (induction l as [|a l IHl]; simpl; intros y; [lia|specialize (IHl y); lia]).
    specialize (Hge rest x). lia.
  - intros Hb Hc. pose proof (challenge_nonempty _ Hc) as Hne.
    destruct (combine_fields action rs keys Hne) as (Ho & Ha & Hr & Hh).
    rewrite Ho, Ha, Hr, Hh, Hb, Hc, no_blocked_max by exact Hb. repeat split.
  - intros Hb Hc. destruct rs as [|r0 rs0]; [repeat split|].
    assert (Hne : r0 :: rs0 <> []) by discriminate.
    destruct (combine_fields action (r0 :: rs0) keys Hne) as (Ho & Ha & Hr & _).
    rewrite Ho, Ha, Hr, Hb, Hc, no_blocked_max by exact Hb. repeat split.
Qed.

End DecisionFacts.

(* ------------------------------------------------------------------ *)
(** ** Token bucket *)

Module TokenBucketFacts.

Import TokenBucket.

Lemma Qle_bool_false : forall a b, Qle_bool a b = false <-> b < a.
Proof.
  intros a b. split; intros H.
  - apply Qnot_le_lt. intros Hle. apply Qle_bool_iff in Hle. congruence.
  - destruct (Qle_bool a b) eqn:E; [|reflexivity].
    apply Qle_bool_iff in E. exfalso. apply (Qlt_not_le b a); assumption.
Qed.





(** C2: [consumeTokens] refills first, then allows exactly when the
    refilled token count is at least [cost]; an allowed call leaves exactly
    [tokens_after_refill - cost] and reports retryAfterMs 0; a denied call
    leaves the refilled tokens unchanged and reports
    [ceil((cost - tokens_after_refill) / refillTokens * refillIntervalMs)],
    or the sentinel [Number.MAX_SAFE_INTEGER] when [refillTokens <= 0] or
    [refillIntervalMs <= 0]; in both cases [expiresAt = now + ttlMs]. *)
Theorem C2_consumeTokens_spec : forall state config cost now ttlMs,
  let refilled := refillBucket state config now in
  let cr := consumeTokens state config cost now ttlMs in
  (c_allowed cr = true <-> cost <= tokens refilled) /\
  (c_allowed cr = true ->
     c_bucketState cr = {| tokens := tokens refilled - cost;
                           lastRefillTime := lastRefillTime refilled;
                           createdAt := createdAt refilled;
                           expiresAt := now + ttlMs |} /\
     c_remainingTokens cr = tokens refilled - cost /\ c_retryAfterMs cr = 0%Z) /\
  (c_allowed cr = false ->
     c_bucketState cr = {| tokens := tokens refilled;
                           lastRefillTime := lastRefillTime refilled;
                           createdAt := createdAt refilled;
                           expiresAt := now + ttlMs |} /\
     c_remainingTokens cr = tokens refilled /\
     c_retryAfterMs cr =
       (if Qle_bool (refillTokens config) 0 || Qle_bool (refillIntervalMs config) 0
        then MAX_SAFE_INTEGER
        else Qceiling ((cost - tokens refilled) / refillTokens config * refillIntervalMs config))) /\
  expiresAt (c_bucketState cr) = now + ttlMs.
Proof.
  intros state config cost now ttlMs refilled cr. subst refilled cr.
  unfold consumeTokens.
  destruct (Qle_bool cost (tokens (refillBucket state config now))) eqn:E; cbn.
  - apply Qle_bool_iff in E. repeat split; auto; discriminate.
  - apply Qle_bool_false in E. repeat split; try discriminate.
    + intros H. exfalso. apply (Qlt_not_le _ _ E H).
    + unfold calculateRetryAfterMs.
      assert (Hneed : Qle_bool (cost - tokens (refillBucket state config now)) 0 = false).
      { apply Qle_bool_false. lra. }
      rewrite Hneed. reflexivity.
Qed.



End TokenBucketFacts.

(* ------------------------------------------------------------------ *)
(** ** Keys *)

Module KeyBuilderFacts.

Import KeyBuilder.
Local Open Scope nat_scope.
Local Open Scope string_scope.

Lemma split_noChar : forall c x, hasChar c x = false -> split c x = [x].
Proof.
  intros c x. induction x as [|a x IH]; simpl; intros H; [reflexivity|].
  apply orb_false_iff in H as [Ha Hx]. rewrite Ha, IH by exact Hx. reflexivity.
Qed.

Lemma split_app_sep : forall c x r, hasChar c x = false ->
  split c (x ++ String c r) = x :: split c r.
Proof.
  intros c x r. induction x as [|a x IH]; simpl; intros H.
  - rewrite Ascii.eqb_refl. reflexivity.
  - apply orb_false_iff in H as [Ha Hx]. rewrite Ha, IH by exact Hx. reflexivity.
Qed.

(** [key.split(':')] undoes [parts.join(':')] on separator-free parts. *)
Lemma split_join : forall parts, parts <> [] ->
  Forall (fun p => hasChar KEY_SEPARATOR p = false) parts ->
  split KEY_SEPARATOR (join parts) = parts.
Proof.
  unfold join. induction parts as [|x rest IH]; intros Hne Hall; [congruence|].
  inversion Hall as [|? ? Hx Hrest]; subst.
  destruct rest as [|y rest'].
  - simpl. apply split_noChar. exact Hx.
  - change (String.concat (String KEY_SEPARATOR EmptyString) (x :: y :: rest'))
      with (x ++ String KEY_SEPARATOR EmptyString
              ++ String.concat (String KEY_SEPARATOR EmptyString) (y :: rest')).
    change (String KEY_SEPARATOR EmptyString ++ ?t) with (String KEY_SEPARATOR t).
    rewrite split_app_sep by exact Hx. rewrite IH; [reflexivity|discriminate|exact Hrest].
Qed.

Lemma hasChar_app : forall c x y, hasChar c (x ++ y) = hasChar c x || hasChar c y.
Proof.
  intros c x y. induction x as [|a x IH]; simpl; [reflexivity|].
  rewrite IH, orb_assoc. reflexivity.
Qed.

Lemma sanitizeValue_clean : forall v,
  hasChar KEY_SEPARATOR (sanitizeValue v) = false /\
  hasChar VALUE_SEPARATOR (sanitizeValue v) = false.
Proof.
  induction v as [|a v [IH1 IH2]]; simpl; [split; reflexivity|].
  destruct (Ascii.eqb a KEY_SEPARATOR || Ascii.eqb a VALUE_SEPARATOR) eqn:E.
  - rewrite IH1, IH2. split; reflexivity.
  - apply orb_false_iff in E as [E1 E2].
    rewrite E1, E2, IH1, IH2. split; reflexivity.
Qed.

Lemma sanitizeValue_length : forall v, String.length (sanitizeValue v) = String.length v.
Proof. induction v; simpl; congruence. Qed.

Lemma sanitizeValue_id : forall v,
  hasChar KEY_SEPARATOR v = false -> hasChar VALUE_SEPARATOR v = false ->
  sanitizeValue v = v.
Proof.
  induction v as [|a v IH]; simpl; intros H1 H2; [reflexivity|].
  apply orb_false_iff in H1 as [Ha1 H1]. apply orb_false_iff in H2 as [Ha2 H2].
  rewrite Ha1, Ha2, IH by assumption. reflexivity.
Qed.

Lemma dimensionName_clean : forall d,
  hasChar KEY_SEPARATOR (dimensionName d) = false /\
  hasChar VALUE_SEPARATOR (dimensionName d) = false /\
  dimensionName d <> "".
Proof. destruct d; vm_compute; repeat split; discriminate. Qed.

Lemma indexOf_app : forall c x r, hasChar c x = false ->
  indexOf c (x ++ String c r) = Some (String.length x).
Proof.
  intros c x r. induction x as [|a x IH]; simpl; intros H.
  - rewrite Ascii.eqb_refl. reflexivity.
  - apply orb_false_iff in H as [Ha Hx]. rewrite Ha, IH by exact Hx. reflexivity.
Qed.

Lemma take_app : forall x r, take (String.length x) (x ++ r) = x.
Proof. induction x as [|a x IH]; intros r; simpl; [destruct r; reflexivity|now rewrite IH]. Qed.

Lemma drop_app : forall x a r, drop (S (String.length x)) (x ++ String a r) = r.
Proof. induction x as [|b x IH]; intros a r; simpl; [reflexivity|apply IH]. Qed.

(** The part [buildKey] pushes for a dimension. *)
Definition dimPart (extractor : Extractor) (context : RequestContext) (d : KeyDimension) : string :=
  dimensionName d ++ String VALUE_SEPARATOR EmptyString
    ++ sanitizeValue (dimensionValue extractor context d).

Lemma buildParts_none : forall extractor context dims,
  buildParts extractor context dims = None <->
  existsb (fun d => missing (extractor d context)) dims = true.
Proof.
  intros extractor context. induction dims as [|d rest IH]; simpl.
  - split; discriminate.
  - destruct (extractor d context) as [v|]; simpl; [|split; reflexivity].
    destruct (String.eqb v ""); simpl; [split; reflexivity|].
    rewrite <- IH. destruct (buildParts extractor context rest); split; congruence.
Qed.

Lemma buildParts_some : forall extractor context dims ps,
  buildParts extractor context dims = Some ps ->
  ps = map (dimPart extractor context) dims.
Proof.
  intros extractor context. induction dims as [|d rest IH]; simpl; intros ps H.
  - congruence.
  - unfold dimPart at 1, dimensionValue at 1.
    destruct (extractor d context) as [v|]; [|discriminate].
    destruct (String.eqb v ""); [discriminate|].
    destruct (buildParts extractor context rest) as [ps'|] eqn:E; [|discriminate].
    injection H as <-. rewrite (IH ps' eq_refl). reflexivity.
Qed.

Lemma buildParts_complete : forall extractor context dims,
  existsb (fun d => missing (extractor d context)) dims = false ->
  buildParts extractor context dims = Some (map (dimPart extractor context) dims).
Proof.
  intros extractor context dims H.
  destruct (buildParts extractor context dims) as [ps|] eqn:E.
  - rewrite (buildParts_some _ _ _ _ E). reflexivity.
  - apply buildParts_none in E. congruence.
Qed.

Lemma parseDimension_dimPart : forall extractor context d acc,
  parseDimension acc (dimPart extractor context d) =
  Assoc.rset (dimensionName d) (sanitizeValue (dimensionValue extractor context d)) acc.
Proof.
  intros extractor context d acc. unfold parseDimension, dimPart.
  destruct (dimensionName_clean d) as (H1 & H2 & H3).
  simpl (String VALUE_SEPARATOR EmptyString ++ _).
  destruct (String.eqb (dimensionName d ++ String VALUE_SEPARATOR
              (sanitizeValue (dimensionValue extractor context d))) "") eqn:E.
  - apply String.eqb_eq in E. destruct (dimensionName d); discriminate.
  - rewrite indexOf_app by exact H2. rewrite take_app, drop_app.
    destruct (String.eqb (dimensionName d) "") eqn:E2; [apply String.eqb_eq in E2; contradiction|].
    reflexivity.
Qed.

Lemma fold_parseDimension : forall extractor context dims acc,
  fold_left parseDimension (map (dimPart extractor context) dims) acc =
  embeddedDimensions extractor context dims acc.
Proof.
  intros extractor context. induction dims as [|d rest IH]; intros acc; simpl; [reflexivity|].
  rewrite parseDimension_dimPart. apply IH.
Qed.

Lemma dimPart_noSep : forall extractor context d,
  hasChar KEY_SEPARATOR (dimPart extractor context d) = false.
Proof.
  intros extractor context d. unfold dimPart.
  rewrite !hasChar_app.
  destruct (dimensionName_clean d) as (H1 & _ & _).
  destruct (sanitizeValue_clean (dimensionValue extractor context d)) as (H4 & _).
  rewrite H1, H4. reflexivity.
Qed.

(** C8: [buildKey] returns no key exactly when some declared dimension's
    value is absent or empty; otherwise it returns
    [action:ruleName:dim=value:...] with every value sanitized (no [:] or
    [=] left, same length, separator-free values kept as they are); and for
    keys built from a non-empty, separator-free action and rule name,
    [parseKey] recovers the action, the rule name and the embedded
    dimension-to-(sanitized)-value mapping. *)
Theorem C8_buildKey_parseKey : forall extractor act rule context,
  (buildKey act rule context extractor = None <->
     existsb (fun d => missing (extractor d context)) (r_key rule) = true) /\
  (existsb (fun d => missing (extractor d context)) (r_key rule) = false ->
     buildKey act rule context extractor =
       Some (join (act :: r_name rule :: map (dimPart extractor context) (r_key rule)))) /\
  (forall v, hasChar KEY_SEPARATOR (sanitizeValue v) = false /\
             hasChar VALUE_SEPARATOR (sanitizeValue v) = false /\
             String.length (sanitizeValue v) = String.length v /\
             (hasChar KEY_SEPARATOR v = false -> hasChar VALUE_SEPARATOR v = false ->
                sanitizeValue v = v)) /\
  (wellFormedKeyParts act (r_name rule) = true ->
     forall k, buildKey act rule context extractor = Some k ->
       parseKey k = Some (mkParsed act (r_name rule)
                            (embeddedDimensions extractor context (r_key rule) []))).
Proof.
  intros extractor act rule context. split; [|split; [|split]].
  - unfold buildKey. rewrite <- buildParts_none.
    destruct (buildParts extractor context (r_key rule)); split; congruence.
  - intros H. unfold buildKey. rewrite buildParts_complete by exact H. reflexivity.
  - intros v. destruct (sanitizeValue_clean v) as [H1 H2].
    repeat split; auto using sanitizeValue_length, sanitizeValue_id.
  - intros Hwf k Hk. unfold buildKey in Hk.
    destruct (buildParts extractor context (r_key rule)) as [ps|] eqn:E; [|discriminate].
    injection Hk as <-. rewrite (buildParts_some _ _ _ _ E).
    unfold wellFormedKeyParts in Hwf.
    apply andb_prop in Hwf as [Hwf Hn4]. apply andb_prop in Hwf as [Hwf Hn3].
    apply andb_prop in Hwf as [Hn1 Hn2].
    apply negb_true_iff in Hn1, Hn2, Hn3, Hn4.
    unfold parseKey. rewrite split_join.
    + cbn [length nth skipn]. rewrite Hn1, Hn2. simpl.
      rewrite fold_parseDimension. reflexivity.
    + discriminate.
    + constructor; [exact Hn3|]. constructor; [exact Hn4|].
      apply Forall_forall. intros p Hp. apply in_map_iff in Hp as [d [<- _]].
      apply dimPart_noSep.
Qed.

End KeyBuilderFacts.

(* ------------------------------------------------------------------ *)
(** ** The memory store: high-water-mark eviction *)

Module EvictionFacts.

Import MemoryStoreM.

Local Abbreviation Ent := (string * StoreEntry)%type.

Definition accessLe (a b : Ent) : Prop := lastAccessedAt (snd a) <= lastAccessedAt (snd b).

Section Phase1.

Variable now : Q.
Variable targetSize : Z.

Lemma phase1_incl : forall l size x,
  In x (evictPhase1 now targetSize size l) -> In x l.
Proof.
  induction l as [|[k e] rest IH]; intros size x H; simpl in *; [exact H|].
  destruct (size <=? targetSize)%Z; [exact H|].
  destruct (expired now e).
  - right. eapply IH. exact H.
  - destruct H as [H|H]; [left; exact H|right; eapply IH; exact H].
Qed.

Lemma phase1_only_expired : forall l size x,
  In x l -> ~ In x (evictPhase1 now targetSize size l) -> expired now (snd x) = true.
Proof.
  induction l as [|[k e] rest IH]; intros size x Hin Hout; simpl in *; [contradiction|].
  destruct (size <=? targetSize)%Z; [contradiction|].
  destruct (expired now e) eqn:Ee.
  - destruct Hin as [<-|Hin]; [exact Ee|].
    eapply IH; eassumption.
  - destruct Hin as [<-|Hin]; [exfalso; apply Hout; left; reflexivity|].
    eapply IH; [exact Hin|]. intros H. apply Hout. right. exact H.
Qed.

Lemma phase1_keeps_live : forall l size x,
  In x l -> expired now (snd x) = false -> In x (evictPhase1 now targetSize size l).
Proof.
  induction l as [|[k e] rest IH]; intros size x Hin Hlive; simpl in *; [contradiction|].
  destruct (size <=? targetSize)%Z; [exact Hin|].
  destruct (expired now e) eqn:Ee.
  - destruct Hin as [<-|Hin]; [simpl in Hlive; congruence|]. apply IH; assumption.
  - destruct Hin as [<-|Hin]; [left; reflexivity|]. right. apply IH; assumption.
Qed.

Lemma phase1_all_expired : forall l size K,
  size = (K + Z.of_nat (length l))%Z ->
  (targetSize < K + Z.of_nat (length (evictPhase1 now targetSize size l)))%Z ->
  forall x, In x l -> expired now (snd x) = true ->
  ~ In x (evictPhase1 now targetSize size l).
Proof.
  induction l as [|[k e] rest IH]; intros size K Hsize Hlt x Hin Hexp; simpl in *;
    [contradiction|].
  destruct (size <=? targetSize)%Z eqn:Es.
  - apply Z.leb_le in Es. simpl in Hlt. lia.
  - destruct (expired now e) eqn:Ee.
    + intros Hres.
      assert (Hx : In x rest) by (eapply phase1_incl; exact Hres).
      eapply (IH (size - 1)%Z K); [lia|exact Hlt|exact Hx|exact Hexp|exact Hres].
    + destruct Hin as [<-|Hin]; [simpl in Hexp; congruence|].
      intros [Heq|Hres]; [subst x; simpl in Hexp; congruence|].
      simpl in Hlt.
      eapply (IH size (K + 1)%Z); [lia|lia|exact Hin|exact Hexp|exact Hres].
Qed.

Lemma phase1_nodup : forall l size,
  NoDup (map fst l) -> NoDup (map fst (evictPhase1 now targetSize size l)).
Proof.
  induction l as [|[k e] rest IH]; intros size Hnd; simpl in *; [exact Hnd|].
  destruct (size <=? targetSize)%Z; [exact Hnd|].
  inversion Hnd as [|? ? Hk Hrest]; subst.
  destruct (expired now e); [apply IH; exact Hrest|].
  simpl. constructor; [|apply IH; exact Hrest].
  intros Hin. apply in_map_iff in Hin as [[k' e'] [Hk' Hin]]. simpl in Hk'. subst k'.
  apply Hk. apply in_map_iff. exists (k, e'). split; [reflexivity|].
  eapply phase1_incl. exact Hin.
Qed.

End Phase1.

Lemma insertByAccess_perm : forall x l, Permutation (insertByAccess x l) (x :: l).
Proof.
  intros x l. induction l as [|y l IH]; simpl; [reflexivity|].
  destruct (Qle_bool _ _); [reflexivity|].
  rewrite IH. apply perm_swap.
Qed.

Lemma sortByAccess_perm : forall l, Permutation (sortByAccess l) l.
Proof.
  induction l as [|x l IH]; simpl; [reflexivity|].
  rewrite insertByAccess_perm, IH. reflexivity.
Qed.

Lemma insertByAccess_sorted : forall x l,
  Sorted accessLe l -> Sorted accessLe (insertByAccess x l).
Proof.
  intros x l. induction l as [|y l IH]; intros Hs; simpl.
  - constructor; constructor.
  - destruct (Qle_bool (lastAccessedAt (snd x)) (lastAccessedAt (snd y))) eqn:E.
    + apply Qle_bool_iff in E. constructor; [exact Hs|constructor; exact E].
    + apply TokenBucketFacts.Qle_bool_false in E.
      inversion Hs as [|? ? Hl Hhd]; subst.
      constructor; [apply IH; exact Hl|].
      destruct l as [|z l]; simpl; [constructor; unfold accessLe; lra|].
      destruct (Qle_bool (lastAccessedAt (snd x)) (lastAccessedAt (snd z)));
        constructor; [unfold accessLe; lra|inversion Hhd; assumption].
Qed.

Lemma sortByAccess_sorted : forall l, Sorted accessLe (sortByAccess l).
Proof.
  induction l as [|x l IH]; simpl; [constructor|].
  apply insertByAccess_sorted. exact IH.
Qed.

Lemma accessLe_trans : forall a b c, accessLe a b -> accessLe b c -> accessLe a c.
Proof. unfold accessLe. intros a b c H1 H2. lra. Qed.

Lemma StronglySorted_app_rel : forall (R : Ent -> Ent -> Prop) a b,
  StronglySorted R (a ++ b) -> forall x y, In x a -> In y b -> R x y.
Proof.
  intros R a b. induction a as [|z a IH]; intros Hs x y Hx Hy; [contradiction|].
  simpl in Hs. inversion Hs as [|? ? Hs' Hall]; subst.
  destruct Hx as [<-|Hx].
  - rewrite Forall_forall in Hall. apply Hall. apply in_or_app. right. exact Hy.
  - eapply IH; eassumption.
Qed.

(** The key of [kv] is not among the keys of [es]. *)
Definition keyNotIn (es : list Ent) (kv : Ent) : bool :=
  forallb (fun e => negb (String.eqb (fst e) (fst kv))) es.

Lemma filter_filter_and : forall (f g : Ent -> bool) l,
  filter f (filter g l) = filter (fun x => g x && f x) l.
Proof.
  intros f g l. induction l as [|x l IH]; simpl; [reflexivity|].
  destruct (g x); simpl; [destruct (f x); simpl; rewrite IH; reflexivity|exact IH].
Qed.

Lemma fold_rdel_filter : forall es m,
  fold_left (fun m e => Assoc.rdel (fst e) m) es m = filter (keyNotIn es) m.
Proof.
  induction es as [|e es IH]; intros m; simpl.
  - unfold keyNotIn. simpl. induction m as [|x m IHm]; simpl; [reflexivity|].
    rewrite <- IHm. reflexivity.
  - rewrite IH. unfold Assoc.rdel. rewrite filter_filter_and. reflexivity.
Qed.

Lemma filter_perm : forall (f : Ent -> bool) l l',
  Permutation l l' -> Permutation (filter f l) (filter f l').
Proof.
  intros f l l' H. induction H; simpl.
  - constructor.
  - destruct (f x); [constructor|]; exact IHPermutation.
  - destruct (f x), (f y); try constructor; try reflexivity.
  - eapply perm_trans; eassumption.
Qed.

Lemma filter_all_true : forall (f : Ent -> bool) l,
  (forall x, In x l -> f x = true) -> filter f l = l.
Proof.
  intros f l. induction l as [|x l IH]; intros H; simpl; [reflexivity|].
  rewrite (H x (or_introl eq_refl)), IH; [reflexivity|].
  intros y Hy. apply H. right. exact Hy.
Qed.

Lemma filter_all_false : forall (f : Ent -> bool) l,
  (forall x, In x l -> f x = false) -> filter f l = [].
Proof.
  intros f l. induction l as [|x l IH]; intros H; simpl; [reflexivity|].
  rewrite (H x (or_introl eq_refl)). apply IH.
  intros y Hy. apply H. right. exact Hy.
Qed.

Lemma keyNotIn_false : forall es x, In x es -> keyNotIn es x = false.
Proof.
  intros es x Hx. unfold keyNotIn.
  destruct (forallb (fun e => negb (String.eqb (fst e) (fst x))) es) eqn:E; [|reflexivity].
  rewrite forallb_forall in E. specialize (E x Hx).
  rewrite String.eqb_refl in E. discriminate.
Qed.

Lemma keyNotIn_false_inv : forall es x,
  keyNotIn es x = false -> exists e, In e es /\ fst e = fst x.
Proof.
  intros es x. unfold keyNotIn. induction es as [|e es IH]; simpl; [discriminate|].
  destruct (String.eqb (fst e) (fst x)) eqn:E; simpl.
  - intros _. exists e. split; [left; reflexivity|]. apply String.eqb_eq. exact E.
  - intros H. destruct (IH H) as [e' [He' Hk]]. exists e'. split; [right|]; assumption.
Qed.

Lemma keyNotIn_true_iff : forall es x,
  keyNotIn es x = true <-> ~ In (fst x) (map fst es).
Proof.
  intros es x. unfold keyNotIn. rewrite forallb_forall. split.
  - intros H Hin. apply in_map_iff in Hin as [e [He Hin]].
    specialize (H e Hin). rewrite He, String.eqb_refl in H. discriminate.
  - intros H e He. apply negb_true_iff. apply String.eqb_neq.
    intros Heq. apply H. rewrite <- Heq. apply in_map. exact He.
Qed.

Lemma nodup_same_key : forall (l : list Ent) k a b,
  NoDup (map fst l) -> In (k, a) l -> In (k, b) l -> a = b.
Proof.
  induction l as [|[k' c] l IH]; intros k a b Hnd Ha Hb; [contradiction|].
  inversion Hnd as [|? ? Hk Hrest]; subst.
  destruct Ha as [Ha|Ha]; destruct Hb as [Hb|Hb].
  - congruence.
  - injection Ha as -> ->. exfalso. apply Hk. apply in_map_iff. exists (k, b). auto.
  - injection Hb as -> ->. exfalso. apply Hk. apply in_map_iff. exists (k, a). auto.
  - eapply IH; eassumption.
Qed.

Lemma nodup_app_disjoint : forall (a b : list Ent) y,
  NoDup (map fst (a ++ b)) -> In y b -> ~ In (fst y) (map fst a).
Proof.
  intros a b y Hnd Hy Hin. rewrite map_app in Hnd.
  induction a as [|z a IH]; [contradiction|].
  simpl in Hnd, Hin. inversion Hnd as [|? ? Hz Hrest]; subst.
  destruct Hin as [Hin|Hin].
  - apply Hz. apply in_or_app. right. rewrite Hin. apply in_map. exact Hy.
  - apply IH; [exact Hrest|exact Hin].
Qed.

Lemma evictEntries_props : forall now opts s,
  NoDup (map fst s) -> (0 <= highWaterMark opts - evictionCount opts)%Z ->
  let ev := evictEntries now opts s in
  (Z.of_nat (length ev) <= highWaterMark opts - evictionCount opts)%Z /\
  (forall x, In x ev -> In x s) /\
  NoDup (map fst ev) /\
  (forall x, In x s -> ~ In x ev -> expired now (snd x) = false ->
     forall y, In y s -> expired now (snd y) = true -> ~ In y ev) /\
  (forall x, In x s -> ~ In x ev -> expired now (snd x) = false ->
     forall y, In y ev -> accessLe x y).
Proof.
  intros now opts s Hnd HT ev. subst ev. unfold evictEntries. cbv zeta.
  set (T := (highWaterMark opts - evictionCount opts)%Z) in *.
  set (s1 := evictPhase1 now T (Z.of_nat (length s)) s).
  assert (Hincl1 : forall x, In x s1 -> In x s) by (intros x; apply phase1_incl).
  assert (Hnd1 : NoDup (map fst s1)) by (apply phase1_nodup; exact Hnd).
  assert (Hkeep : forall x, In x s -> expired now (snd x) = false -> In x s1)
    by (intros x; apply phase1_keeps_live).
  destruct (T <? Z.of_nat (length s1))%Z eqn:Hlt.
  - apply Z.ltb_lt in Hlt.
    set (entries := sortByAccess s1).
    set (k := Z.to_nat (Z.of_nat (length s1) - T)).
    rewrite fold_rdel_filter.
    assert (Hperm : Permutation entries s1) by apply sortByAccess_perm.
    assert (Hsplit : entries = (firstn k entries ++ skipn k entries)%list)
      by (symmetry; apply List.firstn_skipn).
    set (A := firstn k entries) in *. set (B := skipn k entries) in *.
    assert (HndE : NoDup (map fst entries))
      by (apply (Permutation_NoDup (l := map fst s1)); [apply Permutation_map; symmetry; exact Hperm|exact Hnd1]).
    assert (HndAB : NoDup (map fst (A ++ B)%list)) by (rewrite <- Hsplit; exact HndE).
    assert (HfB : filter (keyNotIn A) (A ++ B)%list = B).
    { rewrite filter_app, filter_all_false by (intros x Hx; apply keyNotIn_false; exact Hx).
      simpl. apply filter_all_true. intros y Hy. apply keyNotIn_true_iff.
      eapply nodup_app_disjoint; eassumption. }
    assert (HpermB : Permutation (filter (keyNotIn A) s1) B).
    { rewrite <- HfB, <- Hsplit. apply filter_perm. symmetry. exact Hperm. }
    assert (HlenB : length B = (length s1 - k)%nat).
    { unfold B. rewrite List.length_skipn, (Permutation_length Hperm). reflexivity. }
    assert (Hsorted : StronglySorted accessLe (A ++ B)%list).
    { rewrite <- Hsplit. apply Sorted_StronglySorted; [exact accessLe_trans|].
      apply sortByAccess_sorted. }
    split; [|split; [|split; [|split]]].
    + rewrite (Permutation_length HpermB), HlenB. unfold k. lia.
    + intros x Hx. apply filter_In in Hx as [Hx _]. apply Hincl1. exact Hx.
    + apply (Permutation_NoDup (l := map fst B)).
      * apply Permutation_map. symmetry. exact HpermB.
      * rewrite map_app in HndAB. eapply NoDup_app_remove_l. exact HndAB.
    + intros x _ _ _ y Hy Hey Hyev. apply filter_In in Hyev as [Hy1 _].
      revert Hy1. apply (phase1_all_expired now T s (Z.of_nat (length s)) 0%Z);
        [lia|rewrite Z.add_0_l; exact Hlt|exact Hy|exact Hey].
    + intros x Hx Hxev Hxexp y Hyev.
      assert (Hx1 : In x s1) by (apply Hkeep; assumption).
      assert (HxA : In x A).
      { destruct (keyNotIn A x) eqn:Ef.
        - exfalso. apply Hxev. apply filter_In. split; assumption.
        - destruct (keyNotIn_false_inv A x Ef) as [e [HeA Hke]].
          assert (He1 : In e s1).
          { apply (Permutation_in (l := entries)); [exact Hperm|].
            rewrite Hsplit. apply in_or_app. left. exact HeA. }
          destruct x as [kx ax], e as [ke ae]. simpl in Hke. subst ke.
          rewrite (nodup_same_key s1 kx ax ae Hnd1 Hx1 He1). exact HeA. }
      apply filter_In in Hyev as [Hy1 Hfy].
      assert (HyAB : In y (A ++ B)%list).
      { rewrite <- Hsplit. apply (Permutation_in (l := s1)); [symmetry; exact Hperm|exact Hy1]. }
      apply in_app_or in HyAB as [HyA|HyB].
      * rewrite (keyNotIn_false A y HyA) in Hfy. discriminate.
      * exact (StronglySorted_app_rel accessLe A B Hsorted x y HxA HyB).
  - apply Z.ltb_ge in Hlt.
    split; [exact Hlt|]. split; [exact Hincl1|]. split; [exact Hnd1|].
    split; intros x Hx Hxev Hxexp; exfalso; apply Hxev; apply Hkeep; assumption.
Qed.

Lemma rget_none_iff : forall (m : list Ent) k,
  Assoc.rget k m = None <-> ~ In k (map fst m).
Proof.
  induction m as [|[k' v'] m IH]; intros k; simpl; [split; auto|].
  destruct (String.eqb k k') eqn:E.
  - apply String.eqb_eq in E. subst. split; [discriminate|]. intros H. exfalso. auto.
  - apply String.eqb_neq in E. rewrite IH. split.
    + intros H [H'|H']; [congruence|contradiction].
    + intros H H'. auto.
Qed.

Lemma rset_absent : forall (m : list Ent) k v,
  Assoc.rget k m = None -> Assoc.rset k v m = (m ++ [(k, v)])%list.
Proof.
  induction m as [|[k' v'] m IH]; intros k v H; simpl in *; [reflexivity|].
  destruct (String.eqb k k'); [discriminate|]. rewrite IH by exact H. reflexivity.
Qed.

(** A store at the high-water mark (1 entry, [highWaterMark = 1]) whose
    [evictionCount = 3] exceeds the high-water mark. *)
Definition liveEntry : StoreEntry := mkEntry (mkBucket 1 0 0 1000) 0.
Definition overEvictingStore : MemoryStore :=
  mkStore [("a", liveEntry)] (mkOptions 0 1 3) false false.

(** A store at its high-water mark of 2 with [evictionCount = 1]: one expired
    entry ["old"] and one live entry ["new"]. *)
Definition fullStore : MemoryStore :=
  mkStore [("old", mkEntry (mkBucket 1 0 0 5) 1); ("new", mkEntry (mkBucket 1 0 0 1000) 2)]
          (mkOptions 0 2 1) false false.

(** C7 (counterexample): with [highWaterMark = 1] and [evictionCount = 3],
    setting a new key on a full store leaves 1 entry, above the bound
    [highWaterMark - evictionCount + 1 = -1]. *)
Lemma C7_counterexample :
  Z.of_nat (length (store (snd (set "b" (mkBucket 1 0 0 1000) 0 10 overEvictingStore)))) = 1%Z /\
  (highWaterMark (options overEvictingStore) - evictionCount (options overEvictingStore) + 1
     < Z.of_nat (length (store (snd (set "b" (mkBucket 1 0 0 1000) 0 10 overEvictingStore)))))%Z.
Proof. vm_compute. split; reflexivity. Qed.

(** C7 (amended): when [evictionCount <= highWaterMark], a [set] of a new key
    on a store at or over its high-water mark evicts (toward the target
    [highWaterMark - evictionCount]) and then appends the new entry, so the
    store size afterwards is at most [highWaterMark - evictionCount + 1];
    eviction deletes a live (unexpired) entry only once every expired entry
    has been deleted, and every live entry it deletes was touched no later
    than every entry that stays. *)
Theorem C7_set_eviction_amended : forall ms key st ttlMs now,
  isShutdown ms = false ->
  NoDup (map fst (store ms)) ->
  Assoc.rget key (store ms) = None ->
  (highWaterMark (options ms) <= Z.of_nat (length (store ms)))%Z ->
  (evictionCount (options ms) <= highWaterMark (options ms))%Z ->
  let ev := evictEntries now (options ms) (store ms) in
  let ms' := snd (set key st ttlMs now ms) in
  fst (set key st ttlMs now ms) = inr tt /\
  store ms' = (ev ++ [(key, mkEntry st now)])%list /\
  (Z.of_nat (length (store ms')) <=
     highWaterMark (options ms) - evictionCount (options ms) + 1)%Z /\
  (forall x, In x (store ms) -> ~ In x ev -> expired now (snd x) = false ->
     forall y, In y (store ms) -> expired now (snd y) = true -> ~ In y ev) /\
  (forall x, In x (store ms) -> ~ In x ev -> expired now (snd x) = false ->
     forall y, In y ev -> lastAccessedAt (snd x) <= lastAccessedAt (snd y)).
Proof.
  intros ms key st ttlMs now Hsd Hnd Hkey Hfull Hec ev ms'.
  assert (HT : (0 <= highWaterMark (options ms) - evictionCount (options ms))%Z) by lia.
  destruct (evictEntries_props now (options ms) (store ms) Hnd HT)
    as (Hlen & Hincl & _ & HA & HB).
  fold ev in Hlen, Hincl, HA, HB.
  assert (Hkey' : Assoc.rget key ev = None).
  { apply rget_none_iff. apply rget_none_iff in Hkey. intros Hin. apply Hkey.
    apply in_map_iff in Hin as [x [<- Hx]]. apply in_map. apply Hincl. exact Hx. }
  assert (Hset : set key st ttlMs now ms =
                 (inr tt, with_store ms (ev ++ [(key, mkEntry st now)])%list)).
  { unfold set. rewrite Hsd, Hkey.
    apply Z.leb_le in Hfull. rewrite Hfull. rewrite rset_absent by exact Hkey'. reflexivity. }
  subst ms'. rewrite Hset. simpl.
  split; [reflexivity|]. split; [reflexivity|]. split.
  - rewrite length_app. simpl. lia.
  - split; [exact HA|]. exact HB.
Qed.

(** C7 witness: the theorem at [fullStore]. *)
Lemma C7_witness :
  isShutdown fullStore = false /\
  NoDup (map fst (store fullStore)) /\
  Assoc.rget "k" (store fullStore) = None /\
  (highWaterMark (options fullStore) <= Z.of_nat (length (store fullStore)))%Z /\
  (evictionCount (options fullStore) <= highWaterMark (options fullStore))%Z /\
  (Z.of_nat (length (store (snd (set "k" (mkBucket 1 0 0 50) 0 10 fullStore)))) <=
     highWaterMark (options fullStore) - evictionCount (options fullStore) + 1)%Z.
Proof.
  assert (Hnd : NoDup (map fst (store fullStore))).
  { simpl. constructor; [simpl; intros [H|H]; [discriminate|contradiction]|].
    constructor; [simpl; auto|constructor]. }
  refine (conj eq_refl (conj Hnd (conj eq_refl (conj _ (conj _ _))))).
  - vm_compute. discriminate.
  - vm_compute. discriminate.
  - apply (C7_set_eviction_amended fullStore "k" (mkBucket 1 0 0 50) 0 10);
      [reflexivity|exact Hnd|reflexivity|vm_compute; discriminate|vm_compute; discriminate].
Defined.

End EvictionFacts.

(* ------------------------------------------------------------------ *)
(** ** The memory store: shutdown and the ignored TTL argument *)

Module MemoryStoreFacts.

Import MemoryStoreM.

(** The result every operation gives once the store is shut down. *)
Definition afterShutdown (op : Op) : Error + Ret :=
  if checksShutdown op then inl shutdownError else inr RUnit.

Lemma step_when_shutdown : forall op ms, isShutdown ms = true ->
  step op ms = (afterShutdown op, ms).
Proof.
  intros op ms H. destruct op; unfold afterShutdown; simpl;
  unfold get, set, delete, has, size, clear, shutdown, sweep; rewrite H; reflexivity.
Qed.

Lemma run_when_shutdown : forall ops ms, isShutdown ms = true ->
  run ops ms = (map afterShutdown ops, ms).
Proof.
  induction ops as [|op rest IH]; intros ms H; simpl; [reflexivity|].
  rewrite step_when_shutdown by exact H. rewrite IH by exact H. reflexivity.
Qed.

(** C9: [shutdown] never throws and is idempotent (a second call returns
    normally and changes nothing); after it, in every later state, each of
    [get], [set], [delete], [has], [size] and [clear] fails with the
    "MemoryStore has been shutdown" error, whatever operations come in
    between. *)
Theorem C9_shutdown_idempotent_and_final : forall ms,
  let ms1 := snd (shutdown ms) in
  fst (shutdown ms) = inr tt /\
  isShutdown ms1 = true /\
  shutdown ms1 = (inr tt, ms1) /\
  (forall ops,
     fst (run ops ms1) = map afterShutdown ops /\
     isShutdown (snd (run ops ms1)) = true /\
     Forall2 (fun op r => checksShutdown op = true -> r = inl shutdownError)
             ops (fst (run ops ms1))).
Proof.
  intros ms ms1.
  assert (H1 : isShutdown ms1 = true)
    by (subst ms1; unfold shutdown; destruct (isShutdown ms) eqn:E; simpl; auto).
  assert (H0 : fst (shutdown ms) = inr tt)
    by (unfold shutdown; destruct (isShutdown ms); reflexivity).
  split; [exact H0|]. split; [exact H1|]. split.
  - unfold shutdown at 1. rewrite H1. reflexivity.
  - intros ops. rewrite run_when_shutdown by exact H1. simpl.
    split; [reflexivity|]. split; [exact H1|].
    induction ops as [|op rest IH]; simpl; constructor; [|exact IH].
    unfold afterShutdown. intros ->. reflexivity.
Qed.

(** C10: the [ttlMs] argument of [set] has no effect: two calls differing
    only in it leave identical stores, and every later sequence of
    operations (get, has, sweep, ...) gives identical results. *)
Theorem C10_set_ignores_ttl : forall key st t1 t2 now ms,
  set key st t1 now ms = set key st t2 now ms /\
  (forall ops, run (OpSet key st t1 now :: ops) ms = run (OpSet key st t2 now :: ops) ms).
Proof. intros. split; reflexivity. Qed.

End MemoryStoreFacts.

(* ------------------------------------------------------------------ *)
(** ** The policy engine *)

Module EngineFacts.

Import KeyBuilder TokenBucket Decision Engine.

Section WithStore.

Context {St : Type}.
Variable storeGet : string -> St -> (Error + option TokenBucketState) * St.
Variable storeSet : string -> TokenBucketState -> Q -> St -> (Error + unit) * St.
Variable getTime : St -> Q.
Variable keyExtractor : Extractor.
Variable policies : string -> option ActionPolicy.

(** The rule cost, [rule.cost ?? 1]. *)
Definition ruleCost (rule : RateLimitRule) : Q :=
  match r_cost rule with Some c => c | None => 1 end.

(** The shape of every rule result [evaluateRule] returns for a buildable
    key: the consume result of some bucket at some time, with the outcome
    derived from [allowed] and the rule's mode. *)
Lemma evaluateRule_built : forall rule context policy key s r s',
  buildKey (p_id policy) rule context keyExtractor = Some key ->
  evaluateRule storeGet storeSet getTime keyExtractor rule context policy s = (inr r, s') ->
  exists bs now,
    let cr := consumeTokens bs (ruleToConfig rule) (ruleCost rule) now (calculateDefaultTtl rule) in
    ruleName r = r_name rule /\ Types.key r = key /\
    allowed r = c_allowed cr /\ retryAfterMs r = c_retryAfterMs cr /\
    remainingTokens r = c_remainingTokens cr /\
    (c_allowed cr = true -> outcome r = ALLOWED /\ challenge r = None) /\
    (c_allowed cr = false -> r_mode rule = Some Challenge ->
       outcome r = CHALLENGE /\ challenge r = Some "captcha_required") /\
    (c_allowed cr = false -> r_mode rule <> Some Challenge ->
       outcome r = BLOCKED /\ challenge r = None).
Proof.
  intros rule context policy key s r s' Hkey Hrun.
  unfold evaluateRule, bind, now_, ret in Hrun. rewrite Hkey in Hrun.
  destruct (storeGet key s) as [[e|b] s1]; [discriminate|].
  set (bs := match b with
             | Some b0 => if isBucketExpired b0 (getTime s)
                          then createBucket (ruleToConfig rule) (getTime s) (calculateDefaultTtl rule)
                          else b0
             | None => createBucket (ruleToConfig rule) (getTime s) (calculateDefaultTtl rule)
             end) in Hrun.
  exists bs, (getTime s). cbv zeta. unfold ruleCost.
  destruct (storeSet _ _ _ s1) as [[e|u] s2]; [discriminate|].
  destruct (c_allowed _) eqn:Ha.
  - injection Hrun as <- _. simpl.
    repeat split; intros; try discriminate; reflexivity.
  - destruct (r_mode rule) as [[|]|] eqn:Hm; injection Hrun as <- _; simpl;
      repeat split; intros; try discriminate; try congruence.
Qed.

End WithStore.

(** A one-bucket store: [get] returns the bucket held, [set] replaces it. *)
Definition oneGet (_ : string) (b : option TokenBucketState)
    : (Error + option TokenBucketState) * option TokenBucketState := (inr b, b).
Definition oneSet (_ : string) (b : TokenBucketState) (_ : Q) (_ : option TokenBucketState)
    : (Error + unit) * option TokenBucketState := (inr tt, Some b).
Definition clock500 (_ : option TokenBucketState) : Q := 500.

(** A store that is down: every operation throws. *)
Definition downGet (_ : string) (u : unit) : (Error + option TokenBucketState) * unit :=
  (inl (mkError "connection refused"), u).
Definition downSet (_ : string) (_ : TokenBucketState) (_ : Q) (u : unit) : (Error + unit) * unit :=
  (inl (mkError "connection refused"), u).
Definition clock0 (_ : unit) : Q := 0.

Definition challengeRule : RateLimitRule :=
  mkRule "per_ip" [ip] 1 1 1000 None (Some Challenge) None.
Definition challengePolicy : ActionPolicy := mkPolicy "challenge_action" [challengeRule] closed.
Definition ipContext : RequestContext :=
  mkContext "challenge_action" (Some "192.168.1.1") None None None None None.
Definition noIpContext : RequestContext :=
  mkContext "challenge_action" None None None None None None.
(** An exhausted bucket, refilled at time 500. *)
Definition emptyBucket : TokenBucketState := mkBucket 0 500 0 100000.
Definition onlyChallengePolicy (a : string) : option ActionPolicy :=
  if String.eqb a "challenge_action" then Some challengePolicy else None.

(** C3 (code bug, failing input): a denied challenge-mode rule yields a
    rule result with outcome CHALLENGE but [allowed = false], where the spec
    (and the CHALLENGE fixtures of the decision tests) keep [allowed = true]
    for rule-level reporting; the result carries its retryAfterMs ([1000]),
    and the decision, CHALLENGE, has retryAfterMs [0]. *)
Lemma C3_counterexample :
  let r := evaluateRule oneGet oneSet clock500 defaultExtract challengeRule ipContext
             challengePolicy (Some emptyBucket) in
  let d := evaluatePolicy oneGet oneSet clock500 defaultExtract challengePolicy ipContext
             (Some emptyBucket) in
  (exists rr, fst r = inr rr /\ outcome rr = CHALLENGE /\ allowed rr = false /\
              retryAfterMs rr = 1000%Z) /\
  (exists dd, fst d = inr dd /\ d_outcome dd = CHALLENGE /\ d_retryAfterMs dd = 0%Z).
Proof.
  vm_compute.
  split; eexists; split; [reflexivity| |reflexivity|]; repeat split.
Qed.

(** C3 (code bug): what [evaluateRule] does for a challenge-mode rule whose
    key is built, against the spec's [allowed] staying true. The rule result
    has outcome CHALLENGE exactly when its consume attempt was denied, and
    then carries [allowed = false] (the consume result's flag, so the
    divergence occurs on every challenged request), the hint
    ["captcha_required"] and the consume attempt's computed retryAfterMs;
    the combined decision takes no CHALLENGE result's retryAfterMs: without
    a BLOCKED result its retryAfterMs is [0]. *)
Theorem C3_challenge_rule_code_behaviour :
  forall (St : Type) storeGet storeSet getTime keyExtractor rule context policy
         (s : St) key r s',
  r_mode rule = Some Challenge ->
  buildKey (p_id policy) rule context keyExtractor = Some key ->
  evaluateRule storeGet storeSet getTime keyExtractor rule context policy s = (inr r, s') ->
  (outcome r = CHALLENGE <-> allowed r = false) /\
  (outcome r = CHALLENGE ->
     allowed r = false /\ challenge r = Some "captcha_required" /\
     exists bs now,
       let cr := consumeTokens bs (ruleToConfig rule) (ruleCost rule) now
                   (calculateDefaultTtl rule) in
       c_allowed cr = false /\ retryAfterMs r = c_retryAfterMs cr) /\
  (forall action rs keys, In r rs -> existsb is_blocked rs = false ->
     d_retryAfterMs (combineRuleResults action rs keys) = 0%Z).
Proof.
  intros St storeGet storeSet getTime keyExtractor rule context policy s key r s'
    Hmode Hkey Hrun.
  destruct (evaluateRule_built storeGet storeSet getTime keyExtractor rule context policy
              key s r s' Hkey Hrun) as (bs & now & _ & _ & Ha & Hr & _ & Hok & Hch & _).
  cbv zeta in *.
  split; [|split].
  - destruct (c_allowed _) eqn:Ec.
    + destruct (Hok eq_refl) as [-> _]. rewrite Ha. split; discriminate.
    + destruct (Hch eq_refl Hmode) as [-> _]. rewrite Ha. split; reflexivity.
  - intros Hout. destruct (c_allowed _) eqn:Ec.
    + destruct (Hok eq_refl) as [Ho _]. congruence.
    + destruct (Hch eq_refl Hmode) as [_ Hc]. rewrite Ha.
      split; [reflexivity|]. split; [exact Hc|].
      exists bs, now. split; [exact Ec|exact Hr].
  - intros action rs keys Hin Hb.
    destruct rs as [|r0 rs0]; [contradiction|].
    assert (Hne : r0 :: rs0 <> []) by discriminate.
    destruct (DecisionFacts.combine_fields action (r0 :: rs0) keys Hne) as (_ & _ & Hret & _).
    rewrite Hret. apply DecisionFacts.no_blocked_max. exact Hb.
Qed.

(** C3 witness: the theorem on the exhausted bucket of the counterexample. *)
Lemma C3_witness :
  exists r s',
    evaluateRule oneGet oneSet clock500 defaultExtract challengeRule ipContext
      challengePolicy (Some emptyBucket) = (inr r, s') /\
    outcome r = CHALLENGE /\ allowed r = false /\
    challenge r = Some "captcha_required".
Proof.
  eexists. eexists. split; [vm_compute; reflexivity|].
  destruct (C3_challenge_rule_code_behaviour (option TokenBucketState) oneGet oneSet clock500
              defaultExtract challengeRule ipContext challengePolicy (Some emptyBucket)
              "challenge_action:per_ip:ip=192.168.1.1" _ _ eq_refl
              ltac:(vm_compute; reflexivity) ltac:(vm_compute; reflexivity))
    as (_ & H & _).
  destruct (H ltac:(vm_compute; reflexivity)) as (Ha & Hc & _).
  split; [vm_compute; reflexivity|]. split; assumption.
Defined.

(** C6: when a dimension the rule keys on is absent or empty in the context,
    [evaluateRule] returns the ["skipped"] result (allowed, ALLOWED, retry
    [0], the rule's capacity as remaining tokens) whatever the policy's fail
    mode, and leaves the store state as it was for any store, whose [get],
    [set] and clock it never calls. *)
Theorem C6_missing_dimension_skips :
  forall keyExtractor rule context,
  existsb (fun d => missing (keyExtractor d context)) (r_key rule) = true ->
  forall (St : Type) storeGet storeSet getTime pid rules fm (s : St),
  evaluateRule storeGet storeSet getTime keyExtractor rule context (mkPolicy pid rules fm) s =
    (inr (mkRuleResult (r_name rule) "skipped" true ALLOWED 0 (r_capacity rule) None), s).
Proof.
  intros keyExtractor rule context Hmiss St storeGet storeSet getTime pid rules fm s.
  unfold evaluateRule, buildKey. simpl.
  apply KeyBuilderFacts.buildParts_none in Hmiss. rewrite Hmiss. reflexivity.
Qed.

(** C6 witness: no IP in the context, a store that is down, fail-closed. *)
Lemma C6_witness :
  evaluateRule downGet downSet clock0 defaultExtract challengeRule noIpContext
    challengePolicy tt =
  (inr (mkRuleResult "per_ip" "skipped" true ALLOWED 0 1 None), tt).
Proof.
  exact (C6_missing_dimension_skips defaultExtract challengeRule noIpContext
           ltac:(vm_compute; reflexivity) unit downGet downSet clock0
           "challenge_action" [challengeRule] closed tt).
Defined.

(** C5: when evaluating the policy of the context's action throws a store
    error, [check] still returns a decision, in the state the failure left:
    it has [failedDueToError = true]; fail-open gives allowed, ALLOWED and
    retry [0]; fail-closed gives not allowed, BLOCKED and retry [60000]. *)
Theorem C5_check_store_error :
  forall (St : Type) storeGet storeSet getTime keyExtractor policies context policy
         (s : St) err s1,
  policies (ctx_action context) = Some policy ->
  evaluatePolicy storeGet storeSet getTime keyExtractor policy context s = (inl err, s1) ->
  let r := check storeGet storeSet getTime keyExtractor policies context s in
  snd r = s1 /\ d_failedDueToError (fst r) = Some true /\
  (p_failMode policy = open ->
     d_allowed (fst r) = true /\ d_outcome (fst r) = ALLOWED /\ d_retryAfterMs (fst r) = 0%Z) /\
  (p_failMode policy = closed ->
     d_allowed (fst r) = false /\ d_outcome (fst r) = BLOCKED /\
     d_retryAfterMs (fst r) = 60000%Z).
Proof.
  intros St storeGet storeSet getTime keyExtractor policies context policy s err s1 Hp He.
  cbv zeta. unfold check. rewrite Hp, He. simpl.
  unfold createErrorDecision.
  destruct (p_failMode policy); simpl;
    repeat split; try reflexivity; discriminate.
Qed.

(** C5 witness: the store is down while the IP rule of a fail-closed policy
    is evaluated. *)
Lemma C5_witness :
  d_failedDueToError
    (fst (check downGet downSet clock0 defaultExtract onlyChallengePolicy ipContext tt))
    = Some true /\
  d_outcome (fst (check downGet downSet clock0 defaultExtract onlyChallengePolicy ipContext tt))
    = BLOCKED.
Proof.
  destruct (C5_check_store_error unit downGet downSet clock0 defaultExtract
              onlyChallengePolicy ipContext challengePolicy tt
              (mkError "connection refused") tt
              ltac:(vm_compute; reflexivity) ltac:(vm_compute; reflexivity))
    as (_ & Hf & _ & Hc).
  split; [exact Hf|].
  destruct (Hc eq_refl) as (_ & Ho & _). exact Ho.
Defined.

End EngineFacts.

(* ------------------------------------------------------------------ *)
(** ** Token bucket: retry times, expiry and bounds *)

Module TokenBucketMore.

Import TokenBucket TokenBucketFacts.














End TokenBucketMore.

(* ------------------------------------------------------------------ *)
(** ** Ordered records: lookups after updates *)

Module AssocFacts.

Import Assoc.

Lemma rget_rset : forall {V : Type} (m : list (string * V)) n k v,
  rget n (rset k v m) = if String.eqb n k then Some v else rget n m.
Proof.
  induction m as [|[k' v'] m IH]; intros n k v; simpl.
  - destruct (String.eqb n k); reflexivity.
  - destruct (String.eqb k k') eqn:E1; simpl.
    + apply String.eqb_eq in E1. subst k'. destruct (String.eqb n k); reflexivity.
    + destruct (String.eqb n k') eqn:E2.
      * apply String.eqb_eq in E2. subst k'.
        destruct (String.eqb n k) eqn:E3; [|reflexivity].
        apply String.eqb_eq in E3. subst. rewrite String.eqb_refl in E1. discriminate.
      * rewrite IH. reflexivity.
Qed.

Lemma rget_rdel : forall {V : Type} (m : list (string * V)) n k,
  rget n (rdel k m) = if String.eqb n k then None else rget n m.
Proof.
  unfold rdel. induction m as [|[k' v'] m IH]; intros n k; simpl.
  - destruct (String.eqb n k); reflexivity.
  - destruct (String.eqb k k') eqn:E1; simpl.
    + apply String.eqb_eq in E1. subst k'. rewrite IH.
      destruct (String.eqb n k) eqn:E2; reflexivity.
    + destruct (String.eqb n k') eqn:E2.
      * apply String.eqb_eq in E2. subst k'.
        destruct (String.eqb n k) eqn:E3; [|reflexivity].
        apply String.eqb_eq in E3. subst. rewrite String.eqb_refl in E1. discriminate.
      * rewrite IH. reflexivity.
Qed.

Lemma rset_keys_present : forall {V : Type} (m : list (string * V)) k v w,
  rget k m = Some w -> map fst (rset k v m) = map fst m.
Proof.
  induction m as [|[k' v'] m IH]; intros k v w H; simpl in *; [discriminate|].
  destruct (String.eqb k k') eqn:E.
  - apply String.eqb_eq in E. subst. reflexivity.
  - simpl. f_equal. eapply IH. exact H.
Qed.

End AssocFacts.

(* ------------------------------------------------------------------ *)
(** ** Keys: validation, per-rule keys, collisions, logging, parsing *)

Module KeyBuilderMore.

Import KeyBuilder KeyBuilderFacts AssocFacts.
Local Open Scope nat_scope.
Local Open Scope string_scope.

Lemma validateDimensions_filter : forall context dims extractor,
  validateDimensions context dims extractor = filter (fun d => missing (extractor d context)) dims.
Proof.
  intros context dims extractor. induction dims as [|d rest IH]; simpl; [reflexivity|].
  destruct (extractor d context) as [v|]; simpl; [|now rewrite IH].
  destruct (String.eqb v ""); simpl; now rewrite IH.
Qed.

Lemma filter_nil_existsb : forall {A : Type} (f : A -> bool) l,
  filter f l = [] <-> existsb f l = false.
Proof.
  intros A f l. induction l as [|x l IH]; simpl; [split; reflexivity|].
  destruct (f x); simpl; [split; discriminate|exact IH].
Qed.

(** [validateDimensions] lists, in order, exactly the given dimensions whose
    value is absent or empty, and it returns an empty list exactly when
    [buildKey] can build the rule's key. *)
Theorem validateDimensions_spec : forall context dims extractor action rule,
  (forall d, In d (validateDimensions context dims extractor) <->
             In d dims /\ missing (extractor d context) = true) /\
  (validateDimensions context (r_key rule) extractor = [] <->
   exists k, buildKey action rule context extractor = Some k).
Proof.
  intros context dims extractor action rule. split.
  - intros d. rewrite validateDimensions_filter. apply filter_In.
  - rewrite validateDimensions_filter, filter_nil_existsb. unfold buildKey.
    destruct (buildParts extractor context (r_key rule)) eqn:E.
    + split; [intros _; eexists; reflexivity|intros _].
      destruct (existsb _ _) eqn:Ex; [|reflexivity].
      apply buildParts_none in Ex. congruence.
    + apply buildParts_none in E. rewrite E.
      split; [discriminate|intros [k Hk]; discriminate].
Qed.

Lemma find_app : forall {A : Type} (f : A -> bool) l1 l2,
  find f (l1 ++ l2)%list = match find f l1 with Some x => Some x | None => find f l2 end.
Proof.
  intros A f l1 l2. induction l1 as [|x l1 IH]; simpl; [reflexivity|].
  destruct (f x); [reflexivity|exact IH].
Qed.

Lemma buildKeys_fold : forall action rules context extractor n acc,
  Assoc.rget n (fold_left (fun keys rule =>
                  Assoc.rset (r_name rule) (buildKey action rule context extractor) keys) rules acc) =
  match find (fun r => String.eqb (r_name r) n) (rev rules) with
  | Some r => Some (buildKey action r context extractor)
  | None => Assoc.rget n acc
  end.
Proof.
  intros action rules context extractor n.
  induction rules as [|r rest IH]; intros acc; simpl; [reflexivity|].
  rewrite IH, find_app, rget_rset. simpl.
  rewrite (String.eqb_sym (r_name r) n).
  destruct (find _ (rev rest)); [reflexivity|].
  destruct (String.eqb n (r_name r)); reflexivity.
Qed.

(** [buildKeysForRules] maps each rule name to the key [buildKey] builds for
    the last rule of that name ([undefined] when it cannot be built), and
    has no entry for a name no rule has. *)
Theorem buildKeysForRules_lookup : forall action rules context extractor n,
  Assoc.rget n (buildKeysForRules action rules context extractor) =
  match find (fun r => String.eqb (r_name r) n) (rev rules) with
  | Some r => Some (buildKey action r context extractor)
  | None => None
  end.
Proof. intros. unfold buildKeysForRules. rewrite buildKeys_fold. reflexivity. Qed.

Lemma string_app_cancel : forall p x y, p ++ x = p ++ y -> x = y.
Proof. induction p as [|a p IH]; simpl; intros x y H; [exact H|injection H; apply IH]. Qed.

Lemma missing_sanitize : forall v1 v2, sanitizeValue v1 = sanitizeValue v2 ->
  String.eqb v1 "" = String.eqb v2 "".
Proof.
  intros v1 v2 H.
  assert (Hl : String.length v1 = String.length v2)
    by (rewrite <- (sanitizeValue_length v1), <- (sanitizeValue_length v2), H; reflexivity).
  destruct v1, v2; simpl in *; try reflexivity; discriminate.
Qed.

Lemma buildParts_congr : forall extractor c1 c2 dims,
  (forall d, In d dims ->
     option_map sanitizeValue (extractor d c2) = option_map sanitizeValue (extractor d c1)) ->
  buildParts extractor c2 dims = buildParts extractor c1 dims.
Proof.
  intros extractor c1 c2. induction dims as [|d rest IH]; intros H; simpl; [reflexivity|].
  rewrite IH by (intros d' Hd'; apply H; right; exact Hd').
  specialize (H d (or_introl eq_refl)).
  destruct (extractor d c1) as [v1|], (extractor d c2) as [v2|]; simpl in H;
    try discriminate; [|reflexivity].
  injection H as H. rewrite H, (missing_sanitize v2 v1 H). reflexivity.
Qed.

Lemma buildParts_present : forall extractor context dims ps d,
  buildParts extractor context dims = Some ps -> In d dims ->
  exists v, extractor d context = Some v.
Proof.
  intros extractor context. induction dims as [|d0 rest IH]; intros ps d H Hin; [contradiction|].
  simpl in H. destruct (extractor d0 context) as [v0|] eqn:E0; [|discriminate].
  destruct (String.eqb v0 ""); [discriminate|].
  destruct (buildParts extractor context rest) as [ps'|] eqn:E; [|discriminate].
  destruct Hin as [<-|Hin]; [eauto|]. eapply IH; eauto.
Qed.

Lemma map_eq_in : forall {A B : Type} (f g : A -> B) l x,
  map f l = map g l -> In x l -> f x = g x.
Proof.
  intros A B f g l x. induction l as [|y l IH]; simpl; intros H Hin; [contradiction|].
  injection H as H1 H2. destruct Hin as [<-|Hin]; [exact H1|exact (IH H2 Hin)].
Qed.

(** Two request contexts get the same key for a rule exactly when the
    rule's dimensions have the same values in both after sanitization:
    values differing only in [:], [=] and [_] share one bucket, any other
    difference gives another key (for an action and rule name without [:]). *)
Theorem buildKey_same_key_iff : forall extractor action rule c1 c2 k,
  hasChar KEY_SEPARATOR action = false -> hasChar KEY_SEPARATOR (r_name rule) = false ->
  buildKey action rule c1 extractor = Some k ->
  (buildKey action rule c2 extractor = Some k <->
   forall d, In d (r_key rule) ->
     option_map sanitizeValue (extractor d c2) = option_map sanitizeValue (extractor d c1)).
Proof.
  intros extractor action rule c1 c2 k Ha Hn Hk1. split.
  - intros Hk2 d Hd. unfold buildKey in Hk1, Hk2.
    destruct (buildParts extractor c1 (r_key rule)) as [ps1|] eqn:E1; [|discriminate].
    destruct (buildParts extractor c2 (r_key rule)) as [ps2|] eqn:E2; [|discriminate].
    destruct (buildParts_present _ _ _ _ d E1 Hd) as [v1 Hv1].
    destruct (buildParts_present _ _ _ _ d E2 Hd) as [v2 Hv2].
    rewrite Hv1, Hv2. simpl.
    rewrite (buildParts_some _ _ _ _ E1) in Hk1. rewrite (buildParts_some _ _ _ _ E2) in Hk2.
    rewrite <- Hk2 in Hk1. injection Hk1 as Hj.
    assert (Hclean : forall c, Forall (fun p => hasChar KEY_SEPARATOR p = false)
                       (action :: r_name rule :: map (dimPart extractor c) (r_key rule))).
    { intros c. constructor; [exact Ha|]. constructor; [exact Hn|].
      apply Forall_forall. intros p Hp. apply in_map_iff in Hp as [d' [<- _]].
      apply dimPart_noSep. }
    apply (f_equal (split KEY_SEPARATOR)) in Hj.
    rewrite !split_join in Hj by (discriminate || apply Hclean).
    injection Hj as Hj.
    assert (Hp : dimPart extractor c2 d = dimPart extractor c1 d).
    { symmetry. exact (map_eq_in _ _ _ _ Hj Hd). }
    unfold dimPart, dimensionValue in Hp. rewrite Hv1, Hv2 in Hp.
    apply string_app_cancel in Hp. simpl in Hp. injection Hp as Hp. rewrite Hp. reflexivity.
  - intros H. unfold buildKey in Hk1 |- *. rewrite (buildParts_congr extractor c1 c2 _ H).
    exact Hk1.
Qed.

Lemma dimensionName_inj : forall d1 d2, dimensionName d1 = dimensionName d2 -> d1 = d2.
Proof. intros [] []; vm_compute; intros H; try reflexivity; discriminate. Qed.

Lemma rget_logDimension : forall context acc d0 d,
  Assoc.rget (dimensionName d) (logDimension context acc d0) =
  if String.eqb (dimensionName d0) (dimensionName d) then
    match defaultExtract d0 context with
    | Some v => Some (match d0 with emailHash | phoneHash => maskHash v | _ => v end)
    | None => Assoc.rget (dimensionName d) acc
    end
  else Assoc.rget (dimensionName d) acc.
Proof.
  intros context acc d0 d. unfold logDimension.
  destruct (defaultExtract d0 context) as [v|];
    [|destruct (String.eqb (dimensionName d0) (dimensionName d)); reflexivity].
  destruct d0; rewrite rget_rset, String.eqb_sym; reflexivity.
Qed.

Lemma logging_fold : forall context dims acc d,
  Assoc.rget (dimensionName d) (fold_left (logDimension context) dims acc) =
  if existsb (fun d' => String.eqb (dimensionName d') (dimensionName d)) dims then
    match defaultExtract d context with
    | Some v => Some (match d with emailHash | phoneHash => maskHash v | _ => v end)
    | None => Assoc.rget (dimensionName d) acc
    end
  else Assoc.rget (dimensionName d) acc.
Proof.
  intros context dims. induction dims as [|d0 rest IH]; intros acc d; simpl; [reflexivity|].
  rewrite IH, rget_logDimension.
  destruct (String.eqb (dimensionName d0) (dimensionName d)) eqn:E; simpl.
  - apply String.eqb_eq, dimensionName_inj in E. subst d0.
    destruct (existsb _ rest), (defaultExtract d context); reflexivity.
  - destruct (existsb _ rest); reflexivity.
Qed.

Lemma take_all : forall n s, String.length s <= n -> take n s = s.
Proof.
  induction n as [|n IH]; intros s H; destruct s as [|a s]; simpl in *; try reflexivity.
  - lia.
  - rewrite IH by lia. reflexivity.
Qed.

Lemma string_length_app : forall x y,
  String.length (x ++ y) = String.length x + String.length y.
Proof. induction x as [|a x IH]; intros y; simpl; [reflexivity|now rewrite IH]. Qed.

Lemma take_length : forall n s, String.length (take n s) <= n.
Proof. induction n as [|n IH]; intros [|a s]; simpl; try lia. specialize (IH s). lia. Qed.

(** [extractDimensionsForLogging] logs each requested dimension that has a
    value (the empty string included) under its name, and nothing else; the
    email and phone hashes are masked to their first 8 characters followed by
    ["..."] when longer than 8, so a logged hash is at most 11 characters
    long and shows no character of the hash past the eighth. *)
Theorem extractDimensionsForLogging_masks : forall context dims d,
  Assoc.rget (dimensionName d) (extractDimensionsForLogging context dims) =
    (if existsb (fun d' => String.eqb (dimensionName d') (dimensionName d)) dims then
       option_map (fun v => match d with emailHash | phoneHash => maskHash v | _ => v end)
         (defaultExtract d context)
     else None) /\
  (forall h, String.length (maskHash h) <= 11 /\
     (maskHash h = take 8 h \/ maskHash h = take 8 h ++ "...")).
Proof.
  intros context dims d. split.
  - unfold extractDimensionsForLogging. rewrite logging_fold.
    destruct (existsb _ dims), (defaultExtract d context); reflexivity.
  - intros h. unfold maskHash.
    destruct (Nat.leb (String.length h) 8) eqn:E.
    + apply Nat.leb_le in E. split; [lia|]. left. symmetry. apply take_all. exact E.
    + split; [|right; reflexivity].
      rewrite string_length_app. pose proof (take_length 8 h).
      change (String.length "...") with 3. lia.
Qed.

Lemma split_nonempty : forall c s, split c s <> [].
Proof.
  intros c s. destruct s as [|a s]; simpl; [discriminate|].
  destruct (Ascii.eqb a c); [discriminate|]. destruct (split c s); discriminate.
Qed.

Lemma split_two : forall c s, hasChar c s = true -> 2 <= length (split c s).
Proof.
  intros c s. induction s as [|a s IH]; simpl; intros H; [discriminate|].
  destruct (Ascii.eqb a c) eqn:E.
  - simpl. pose proof (split_nonempty c s). destruct (split c s); [congruence|simpl; lia].
  - simpl in H. specialize (IH H). destruct (split c s); simpl in *; lia.
Qed.

(** [parseKey] returns [null] exactly for a key without [:] or whose first
    (action) or second (rule name) [:]-segment is empty. *)
Theorem parseKey_none_iff : forall key,
  parseKey key = None <->
  hasChar KEY_SEPARATOR key = false \/
  nth 0 (split KEY_SEPARATOR key) "" = "" \/ nth 1 (split KEY_SEPARATOR key) "" = "".
Proof.
  intros key. unfold parseKey.
  destruct (hasChar KEY_SEPARATOR key) eqn:Hc.
  - pose proof (split_two _ _ Hc) as H2.
    assert (Hlt : Nat.ltb (length (split KEY_SEPARATOR key)) 2 = false)
      by (apply Nat.ltb_ge; exact H2).
    rewrite Hlt.
    destruct (String.eqb (nth 0 (split KEY_SEPARATOR key) "") "") eqn:E0;
      [apply String.eqb_eq in E0|apply String.eqb_neq in E0];
    destruct (String.eqb (nth 1 (split KEY_SEPARATOR key) "") "") eqn:E1;
      [apply String.eqb_eq in E1|apply String.eqb_neq in E1|apply String.eqb_eq in E1|apply String.eqb_neq in E1];
      simpl; split; intros H; try tauto; try discriminate.
    destruct H as [H|[H|H]]; discriminate || contradiction.
  - rewrite split_noChar by exact Hc. simpl. split; [intros _; left; reflexivity|reflexivity].
Qed.

(** Witness: the IPs ["a:b"] and ["a=b"] share a key. *)
Definition ipRule : RateLimitRule := mkRule "per_ip" [ip] 5 1 1000 None None None.
Definition ctxColon : RequestContext := mkContext "login" (Some "a:b") None None None None None.
Definition ctxEquals : RequestContext := mkContext "login" (Some "a=b") None None None None None.

Lemma buildKey_same_key_iff_witness :
  buildKey "login" ipRule ctxEquals defaultExtract = Some "login:per_ip:ip=a_b".
Proof.
  apply (proj2 (buildKey_same_key_iff defaultExtract "login" ipRule ctxColon ctxEquals
                  "login:per_ip:ip=a_b" eq_refl eq_refl ltac:(vm_compute; reflexivity))).
  intros d [<-|[]]. reflexivity.
Defined.

End KeyBuilderMore.

(* ------------------------------------------------------------------ *)
(** ** The memory store: lookups, sweeping and the high-water mark *)

Module MemoryStoreMore.

Import MemoryStoreM AssocFacts.

Lemma nodup_filter_keys : forall (f : string * StoreEntry -> bool) l,
  NoDup (map fst l) -> NoDup (map fst (filter f l)).
Proof.
  intros f l. induction l as [|x l IH]; simpl; intros H; [constructor|].
  inversion H as [|? ? Hx Hl]; subst.
  destruct (f x); simpl; [|auto].
  constructor; [|auto]. intros Hin. apply Hx.
  apply in_map_iff in Hin as [y [Hy Hin]]. apply filter_In in Hin as [Hin _].
  rewrite <- Hy. apply in_map. exact Hin.
Qed.

Lemma length_filter_le : forall {A : Type} (f : A -> bool) l, (length (filter f l) <= length l)%nat.
Proof. intros A f l. induction l as [|x l IH]; simpl; [lia|destruct (f x); simpl; lia]. Qed.

Lemma rget_filter_nodup : forall (f : string * StoreEntry -> bool) m k,
  NoDup (map fst m) ->
  Assoc.rget k (filter f m) =
  match Assoc.rget k m with Some e => if f (k, e) then Some e else None | None => None end.
Proof.
  intros f m k. induction m as [|[k' v'] m IH]; simpl; intros Hnd; [reflexivity|].
  inversion Hnd as [|? ? Hx Hl]; subst.
  destruct (String.eqb k k') eqn:E.
  - apply String.eqb_eq in E. subst k'.
    assert (Hn : Assoc.rget k m = None) by (apply EvictionFacts.rget_none_iff; exact Hx).
    destruct (f (k, v')); simpl; [rewrite String.eqb_refl; reflexivity|].
    rewrite IH, Hn by exact Hl. reflexivity.
  - destruct (f (k', v')); simpl; [rewrite E|]; apply IH; exact Hl.
Qed.

(** [get] after [set] on the same key returns the state just written,
    unless it has expired by then; when the [set] updates an existing key or
    the store is below its high-water mark, no other key's [get] changes. *)
Theorem get_after_set : forall ms key st ttlMs now now',
  isShutdown ms = false ->
  fst (get key now' (snd (set key st ttlMs now ms))) =
    inr (if Qle_bool (expiresAt st) now' then None else Some st) /\
  ((Assoc.rget key (store ms) <> None \/
    (Z.of_nat (length (store ms)) < highWaterMark (options ms))%Z) ->
   forall k, k <> key ->
     fst (get k now' (snd (set key st ttlMs now ms))) = fst (get k now' ms)).
Proof.
  intros ms key st ttlMs now now' Hsd. unfold set. rewrite Hsd.
  split.
  - destruct (Assoc.rget key (store ms)); unfold get; simpl; rewrite Hsd, rget_rset, String.eqb_refl;
      unfold expired; simpl; destruct (Qle_bool (expiresAt st) now'); reflexivity.
  - intros Hno k Hk. apply String.eqb_neq in Hk.
    destruct (Assoc.rget key (store ms)) eqn:E.
    + unfold get; simpl. rewrite Hsd, rget_rset, Hk.
      destruct (Assoc.rget k (store ms)) as [e'|]; [destruct (expired now' e')|]; reflexivity.
    + destruct Hno as [Hno|Hno]; [congruence|].
      assert (Hf : (highWaterMark (options ms) <=? Z.of_nat (length (store ms)))%Z = false)
        by (apply Z.leb_gt; exact Hno).
      rewrite Hf. unfold get; simpl. rewrite Hsd, rget_rset, Hk.
      destruct (Assoc.rget k (store ms)) as [e'|]; [destruct (expired now' e')|]; reflexivity.
Qed.

(** After [delete(key)], [get(key)] returns [undefined] and [has(key)]
    returns [false], and every other key reads as before. *)
Theorem delete_then_lookup : forall ms key now,
  isShutdown ms = false ->
  let ms' := snd (delete key ms) in
  fst (get key now ms') = inr None /\ fst (has key now ms') = inr false /\
  (forall k, k <> key -> fst (get k now ms') = fst (get k now ms) /\
                         fst (has k now ms') = fst (has k now ms)).
Proof.
  intros ms key now Hsd ms'. subst ms'. unfold delete. rewrite Hsd. simpl.
  unfold get, has; simpl. rewrite Hsd, rget_rdel, String.eqb_refl.
  split; [reflexivity|]. split; [reflexivity|].
  intros k Hk. apply String.eqb_neq in Hk. rewrite rget_rdel, Hk.
  destruct (Assoc.rget k (store ms)) as [e|]; [destruct (expired now e)|]; split; reflexivity.
Qed.

(** [has(key)] answers exactly whether [get(key)] would return a state (or
    throws the same error), and leaves the same keys in the store. *)
Theorem has_agrees_with_get : forall key now ms,
  fst (has key now ms) =
    match fst (get key now ms) with
    | inl e => inl e
    | inr v => inr (match v with Some _ => true | None => false end)
    end /\
  map fst (store (snd (has key now ms))) = map fst (store (snd (get key now ms))).
Proof.
  intros key now ms. unfold has, get.
  destruct (isShutdown ms); [split; reflexivity|].
  destruct (Assoc.rget key (store ms)) as [e|] eqn:E; [|split; reflexivity].
  destruct (expired now e); [split; reflexivity|]. simpl.
  split; [reflexivity|]. symmetry. eapply rset_keys_present. exact E.
Qed.

(** The sweeper leaves only unexpired entries, and no [get] or [has] made
    at the sweep time can tell whether it ran (in a store whose keys are
    distinct, as in a [Map]). *)
Theorem sweep_unobservable : forall now ms,
  isShutdown ms = false -> NoDup (map fst (store ms)) ->
  let ms' := sweep now ms in
  (forall kv, In kv (store ms') -> expired now (snd kv) = false) /\
  (forall k, fst (get k now ms') = fst (get k now ms) /\
             fst (has k now ms') = fst (has k now ms)).
Proof.
  intros now ms Hsd Hnd ms'. subst ms'. unfold sweep. rewrite Hsd. split.
  - intros kv Hin. simpl in Hin. apply filter_In in Hin as [_ H]. apply negb_true_iff. exact H.
  - intros k. unfold get, has. simpl. rewrite Hsd, rget_filter_nodup by exact Hnd.
    destruct (Assoc.rget k (store ms)) as [e|]; [|split; reflexivity].
    cbn [snd negb]. destruct (expired now e) eqn:Ex; cbn [negb]; rewrite ?Ex; split; reflexivity.
Qed.

(** The store invariant: the options never change, keys are distinct and the
    size is at most the high-water mark. *)
Definition storeInv (opts : MemoryStoreOptions) (ms : MemoryStore) : Prop :=
  options ms = opts /\ NoDup (map fst (store ms)) /\
  (Z.of_nat (length (store ms)) <= highWaterMark opts)%Z.

Lemma inv_filter : forall opts ms f,
  storeInv opts ms -> storeInv opts (with_store ms (filter f (store ms))).
Proof.
  intros opts ms f (Ho & Hn & Hl). unfold storeInv; simpl.
  split; [exact Ho|]. split; [apply nodup_filter_keys; exact Hn|].
  pose proof (length_filter_le f (store ms)). lia.
Qed.

Lemma inv_rset_present : forall opts ms k v w,
  storeInv opts ms -> Assoc.rget k (store ms) = Some w ->
  storeInv opts (with_store ms (Assoc.rset k v (store ms))).
Proof.
  intros opts ms k v w (Ho & Hn & Hl) Hw. unfold storeInv; simpl.
  assert (Hlen : length (Assoc.rset k v (store ms)) = length (store ms))
    by (rewrite <- (length_map fst), (rset_keys_present _ k v w Hw), length_map; reflexivity).
  rewrite (rset_keys_present _ k v w Hw), Hlen. auto.
Qed.

Lemma nodup_snoc : forall (l : list string) x, NoDup l -> ~ In x l -> NoDup (l ++ [x])%list.
Proof.
  induction l as [|a l IH]; simpl; intros x Hn Hx.
  - constructor; [intros []|constructor].
  - inversion Hn as [|? ? Ha Hl]; subst. constructor.
    + intros Hin. apply in_app_or in Hin as [Hin|[Hin|[]]]; [contradiction|].
      subst. apply Hx. left. reflexivity.
    + apply IH; [exact Hl|]. intros Hin. apply Hx. right. exact Hin.
Qed.

Lemma inv_insert_new : forall opts ms s' key e,
  options ms = opts -> NoDup (map fst s') -> (forall x, In x s' -> In x (store ms)) ->
  Assoc.rget key (store ms) = None ->
  (Z.of_nat (length s') + 1 <= highWaterMark opts)%Z ->
  storeInv opts (with_store ms (Assoc.rset key e s')).
Proof.
  intros opts ms s' key e Ho Hn Hincl E Hlen.
  assert (Hk : Assoc.rget key s' = None).
  { apply EvictionFacts.rget_none_iff. intros Hin. apply in_map_iff in Hin as [x [Hx Hin]].
    apply EvictionFacts.rget_none_iff in E. apply E. rewrite <- Hx. apply in_map.
    apply Hincl. exact Hin. }
  unfold storeInv; simpl. rewrite EvictionFacts.rset_absent by exact Hk.
  split; [exact Ho|]. split.
  - rewrite map_app. simpl. apply nodup_snoc; [exact Hn|].
    apply EvictionFacts.rget_none_iff. exact Hk.
  - rewrite length_app. simpl. lia.
Qed.

Lemma inv_set : forall opts ms key st ttl now,
  (1 <= evictionCount opts <= highWaterMark opts)%Z ->
  storeInv opts ms -> storeInv opts (snd (set key st ttl now ms)).
Proof.
  intros opts ms key st ttl now [H1 H2] Hinv. pose proof Hinv as (Ho & Hn & Hl).
  unfold set. destruct (isShutdown ms); [exact Hinv|].
  destruct (Assoc.rget key (store ms)) as [w|] eqn:E.
  - exact (inv_rset_present opts ms key _ w Hinv E).
  - cbv zeta. simpl snd. rewrite Ho.
    destruct (highWaterMark opts <=? Z.of_nat (length (store ms)))%Z eqn:Hc.
    + destruct (EvictionFacts.evictEntries_props now opts (store ms) Hn ltac:(lia))
        as (Hlen & Hincl & Hnd' & _).
      apply inv_insert_new; [exact Ho|exact Hnd'|exact Hincl|exact E|lia].
    + apply Z.leb_gt in Hc.
      apply inv_insert_new; [exact Ho|exact Hn|auto|exact E|lia].
Qed.

Lemma inv_step : forall opts op ms,
  (1 <= evictionCount opts <= highWaterMark opts)%Z ->
  storeInv opts ms -> storeInv opts (snd (step op ms)).
Proof.
  intros opts op ms Hopt Hinv. pose proof Hinv as (Ho & Hn & Hl).
  assert (Hlift : forall A (f : A -> Ret) (o : Outcome A), snd (lift f o) = snd o)
    by (intros A f [[e|a] m]; reflexivity).
  destruct op as [k now|k st t now|k|k now| | | |now]; simpl step;
    try rewrite Hlift.
  - unfold get. destruct (isShutdown ms); [exact Hinv|].
    destruct (Assoc.rget k (store ms)) as [e|] eqn:E; [|exact Hinv].
    destruct (expired now e); [apply inv_filter; exact Hinv|].
    exact (inv_rset_present opts ms k _ e Hinv E).
  - apply inv_set; assumption.
  - unfold delete. destruct (isShutdown ms); [exact Hinv|]. apply inv_filter. exact Hinv.
  - unfold has. destruct (isShutdown ms); [exact Hinv|].
    destruct (Assoc.rget k (store ms)) as [e|]; [|exact Hinv].
    destruct (expired now e); [apply inv_filter|]; exact Hinv.
  - unfold size. destruct (isShutdown ms); exact Hinv.
  - unfold clear. destruct (isShutdown ms); [exact Hinv|].
    unfold storeInv; simpl. split; [exact Ho|]. split; [constructor|lia].
  - unfold shutdown. destruct (isShutdown ms); [exact Hinv|].
    unfold storeInv; simpl. split; [exact Ho|]. split; [constructor|lia].
  - unfold sweep. destruct (isShutdown ms); [exact Hinv|]. apply inv_filter. exact Hinv.
Qed.

Lemma inv_run : forall opts ops ms,
  (1 <= evictionCount opts <= highWaterMark opts)%Z ->
  storeInv opts ms -> storeInv opts (snd (run ops ms)).
Proof.
  intros opts ops. induction ops as [|op rest IH]; intros ms Hopt Hinv; simpl; [exact Hinv|].
  pose proof (inv_step opts op ms Hopt Hinv) as H1.
  destruct (step op ms) as [r ms1]. simpl in H1.
  pose proof (IH ms1 Hopt H1) as H2.
  destruct (run rest ms1) as [rs ms2]. exact H2.
Qed.

(** From a new store whose options are integers, [evictionCount] between 1
    and the high-water mark and the high-water mark at most [2^53] (where
    every number the store computes is exact), no sequence of operations (and
    timer sweeps) ever lets the store hold more entries than the high-water
    mark: its keys stay distinct and [getStats] never reports a utilization
    above 100%. The options are integers here as [MemoryStoreOptions] is
    modelled; the source does not validate them. *)
Theorem run_within_highWaterMark : forall opts ops,
  (1 <= evictionCount opts <= highWaterMark opts)%Z ->
  (highWaterMark opts <= 2 ^ 53)%Z ->
  let ms := snd (run ops (newMemoryStore opts)) in
  (Z.of_nat (length (store ms)) <= highWaterMark opts)%Z /\
  NoDup (map fst (store ms)) /\
  utilizationPercent (getStats ms) <= 100.
Proof.
  intros opts ops Hopt _ ms.
  assert (H0 : storeInv opts (newMemoryStore opts))
    by (unfold storeInv; simpl; split; [reflexivity|split; [constructor|lia]]).
  destruct (inv_run opts ops _ Hopt H0) as (Ho & Hn & Hl). fold ms in Ho, Hn, Hl.
  split; [exact Hl|]. split; [exact Hn|].
  unfold getStats. cbn [utilizationPercent]. rewrite Ho.
  assert (Hh : 0 < inject_Z (highWaterMark opts))
    by (change 0 with (inject_Z 0); rewrite <- Zlt_Qlt; lia).
  assert (Hd : inject_Z (Z.of_nat (length (store ms))) / inject_Z (highWaterMark opts) <= 1).
  { apply Qle_shift_div_r; [exact Hh|]. rewrite Qmult_1_l. rewrite <- Zle_Qle. exact Hl. }
  apply (Qle_trans _ (1 * 100)); [|vm_compute; discriminate].
  apply Qmult_le_compat_r; [exact Hd|vm_compute; discriminate].
Qed.

(** Concrete store for the witnesses: entry "a" live until 1000, entry "b"
    expired from 10 on; high-water mark 2, eviction count 1. *)
Definition wStore : MemoryStore :=
  mkStore [("a", mkEntry (mkBucket 1 0 0 1000) 0); ("b", mkEntry (mkBucket 1 0 0 10) 0)]
    (mkOptions 0 2 1) false false.

Lemma get_after_set_witness :
  isShutdown wStore = false /\
  fst (get "a" 5 (snd (set "a" (mkBucket 3 5 5 2000) 1000 5 wStore))) =
    inr (Some (mkBucket 3 5 5 2000)) /\
  fst (get "b" 5 (snd (set "a" (mkBucket 3 5 5 2000) 1000 5 wStore))) =
    fst (get "b" 5 wStore).
Proof.
  split; [reflexivity|]. split.
  - exact (proj1 (get_after_set wStore "a" (mkBucket 3 5 5 2000) 1000 5 5 eq_refl)).
  - apply (proj2 (get_after_set wStore "a" (mkBucket 3 5 5 2000) 1000 5 5 eq_refl));
      [left; discriminate|discriminate].
Defined.

Lemma delete_then_lookup_witness :
  isShutdown wStore = false /\
  fst (get "a" 5 (snd (delete "a" wStore))) = inr None.
Proof.
  split; [reflexivity|]. exact (proj1 (delete_then_lookup wStore "a" 5 eq_refl)).
Defined.

Lemma sweep_unobservable_witness :
  isShutdown wStore = false /\ NoDup (map fst (store wStore)) /\
  fst (get "b" 100 (sweep 100 wStore)) = fst (get "b" 100 wStore).
Proof.
  assert (Hnd : NoDup (map fst (store wStore)))
    by (simpl; constructor; [intros [H|[]]; discriminate|constructor; [intros []|constructor]]).
  split; [reflexivity|]. split; [exact Hnd|].
  exact (proj1 (proj2 (sweep_unobservable 100 wStore eq_refl Hnd) "b")).
Defined.

Lemma run_within_highWaterMark_witness :
  (1 <= evictionCount (mkOptions 0 2 1) <= highWaterMark (mkOptions 0 2 1))%Z /\
  (highWaterMark (mkOptions 0 2 1) <= 2 ^ 53)%Z /\
  (Z.of_nat (length (store (snd (run [OpSet "a" (mkBucket 1 0 0 1000) 1000 0;
      OpSet "b" (mkBucket 1 0 0 1000) 1000 1; OpSet "c" (mkBucket 1 0 0 1000) 1000 2]
      (newMemoryStore (mkOptions 0 2 1)))))) <= 2)%Z.
Proof.
  assert (H : (1 <= evictionCount (mkOptions 0 2 1) <= highWaterMark (mkOptions 0 2 1))%Z)
    by (simpl; lia).
  assert (H' : (highWaterMark (mkOptions 0 2 1) <= 2 ^ 53)%Z) by (vm_compute; discriminate).
  split; [exact H|]. split; [exact H'|].
  exact (proj1 (run_within_highWaterMark (mkOptions 0 2 1) _ H H')).
Defined.

End MemoryStoreMore.

(** * More of the policy engine: what every evaluated decision reports *)

Module EngineMore.

Import KeyBuilder TokenBucket Decision Engine.

(** The facts every rule result of [evaluateRule] keeps about its rule: it
    carries the rule's name, it is [allowed] exactly when its outcome is
    ALLOWED, and a challenge-mode rule never yields BLOCKED. *)
Definition resultFits (rule : RateLimitRule) (r : RuleResult) : Prop :=
  ruleName r = r_name rule /\ (allowed r = true <-> outcome r = ALLOWED) /\
  (r_mode rule = Some Challenge -> outcome r <> BLOCKED).

Lemma Forall2_in_r : forall {A B : Type} (R : A -> B -> Prop) l1 l2 y,
  Forall2 R l1 l2 -> In y l2 -> exists x, In x l1 /\ R x y.
Proof.
  intros A B R l1 l2 y H. induction H as [|x y' l1 l2 Hxy _ IH]; simpl; [intros []|].
  intros [<-|Hin]; [exists x; split; [left; reflexivity|exact Hxy]|].
  destruct (IH Hin) as (x' & Hx' & Hr). exists x'. split; [right; exact Hx'|exact Hr].
Qed.

Lemma combine_results : forall a rs k,
  d_ruleResults (combineRuleResults a rs k) = rs /\ d_action (combineRuleResults a rs k) = a /\
  d_failedDueToError (combineRuleResults a rs k) = None /\ d_keys (combineRuleResults a rs k) = k.
Proof.
  intros a [|r rs] k; [repeat split|].
  unfold combineRuleResults. cbv zeta.
  destruct (hasBlock _); [|destruct (hasChallenge _)]; repeat split.
Qed.

Lemma filter_negb_nil : forall {A : Type} (f : A -> bool) l,
  filter (fun x => negb (f x)) l = [] <-> forallb f l = true.
Proof.
  intros A f l. induction l as [|x l IH]; simpl; [split; reflexivity|].
  destruct (f x); simpl; [exact IH|split; discriminate].
Qed.

Lemma blocked_or_challenge : forall rs,
  (existsb is_blocked rs || existsb is_challenge rs)%bool =
  negb (forallb (fun r => outcome_eqb (outcome r) ALLOWED) rs).
Proof.
  induction rs as [|r rs IH]; [reflexivity|]. cbn [existsb forallb].
  replace (is_blocked r) with (outcome_eqb (outcome r) BLOCKED) by reflexivity.
  replace (is_challenge r) with (outcome_eqb (outcome r) CHALLENGE) by reflexivity.
  destruct (outcome r); simpl; try rewrite <- IH;
    destruct (existsb is_blocked rs), (existsb is_challenge rs); reflexivity.
Qed.

Section WithStore.

Context {St : Type}.
Variable storeGet : string -> St -> (Error + option TokenBucketState) * St.
Variable storeSet : string -> TokenBucketState -> Q -> St -> (Error + unit) * St.
Variable getTime : St -> Q.
Variable keyExtractor : Extractor.
Variable policies : string -> option ActionPolicy.

Lemma evaluateRule_fits : forall rule context policy s r s',
  evaluateRule storeGet storeSet getTime keyExtractor rule context policy s = (inr r, s') ->
  resultFits rule r.
Proof.
  intros rule context policy s r s' Hrun.
  destruct (buildKey (p_id policy) rule context keyExtractor) as [key|] eqn:Hk.
  - destruct (EngineFacts.evaluateRule_built storeGet storeSet getTime keyExtractor
        rule context policy key s r s' Hk Hrun) as (bs & now & H).
    cbv zeta in H. revert H.
    generalize (consumeTokens bs (ruleToConfig rule) (EngineFacts.ruleCost rule) now
                  (calculateDefaultTtl rule)).
    intros cr (Hn & _ & Ha & _ & _ & Ht & Hc & Hb).
    unfold resultFits. rewrite Ha. split; [exact Hn|].
    destruct (c_allowed cr) eqn:E.
    + destruct (Ht eq_refl) as [Ho _]. rewrite Ho.
      split; [split; reflexivity|]. intros _; discriminate.
    + destruct (r_mode rule) as [[|]|] eqn:Hm.
      * destruct (Hb eq_refl ltac:(discriminate)) as [Ho _]. rewrite Ho.
        split; [split; discriminate|]. intros H; discriminate.
      * destruct (Hc eq_refl eq_refl) as [Ho _]. rewrite Ho.
        split; [split; discriminate|]. intros _; discriminate.
      * destruct (Hb eq_refl ltac:(discriminate)) as [Ho _]. rewrite Ho.
        split; [split; discriminate|]. intros H; discriminate.
  - unfold evaluateRule in Hrun. rewrite Hk in Hrun. unfold ret in Hrun.
    injection Hrun as <- _. unfold resultFits; simpl.
    split; [reflexivity|]. split; [split; reflexivity|]. intros _; discriminate.
Qed.

Lemma evaluateRules_fits : forall rules context policy acc keys s res s',
  evaluateRules storeGet storeSet getTime keyExtractor rules context policy acc keys s
    = (inr res, s') ->
  exists rs, fst res = (acc ++ rs)%list /\ Forall2 resultFits rules rs.
Proof.
  induction rules as [|rule rest IH]; intros context policy acc keys s res s' Hrun;
    cbn [evaluateRules] in Hrun.
  - unfold ret in Hrun. injection Hrun as <- _. exists []. rewrite app_nil_r.
    split; [reflexivity|constructor].
  - unfold bind at 1 in Hrun.
    destruct (evaluateRule storeGet storeSet getTime keyExtractor rule context policy s)
      as [[e|r] s1] eqn:E; [discriminate|].
    destruct (IH _ _ _ _ _ _ _ Hrun) as (rs & Hf & Hfa).
    exists (r :: rs). rewrite Hf, <- app_assoc. split; [reflexivity|].
    constructor; [eapply evaluateRule_fits; exact E|exact Hfa].
Qed.

Lemma evaluatePolicy_inr : forall policy context s d s',
  evaluatePolicy storeGet storeSet getTime keyExtractor policy context s = (inr d, s') ->
  exists rs keys,
    evaluateRules storeGet storeSet getTime keyExtractor (p_rules policy) context policy [] [] s
      = (inr (rs, keys), s') /\ d = combineRuleResults (p_id policy) rs keys.
Proof.
  intros policy context s d s'. unfold evaluatePolicy, bind, ret.
  destruct (evaluateRules _ _ _ _ _ _ _ _ _ s) as [[e|[rs keys]] s1]; intros H; [discriminate|].
  injection H as <- <-. exists rs, keys. split; reflexivity.
Qed.

Lemma evaluatePolicy_fits : forall policy context s d s',
  evaluatePolicy storeGet storeSet getTime keyExtractor policy context s = (inr d, s') ->
  d = combineRuleResults (p_id policy) (d_ruleResults d) (d_keys d) /\
  Forall2 resultFits (p_rules policy) (d_ruleResults d).
Proof.
  intros policy context s d s' H.
  destruct (evaluatePolicy_inr policy context s d s' H) as (rs & keys & Hr & ->).
  destruct (evaluateRules_fits _ _ _ _ _ _ _ _ Hr) as (rs' & Hf & Hfa).
  simpl in Hf. subst rs'. destruct (combine_results (p_id policy) rs keys) as (Hrs & _ & _ & Hk).
  rewrite Hrs, Hk. split; [reflexivity|exact Hfa].
Qed.

(** [evaluatePolicy] never short-circuits: a decision it returns reports one
    rule result per rule of the policy, in the policy's order, each under its
    rule's name, [allowed] exactly when its outcome is ALLOWED, never BLOCKED
    for a challenge-mode rule; the decision names the policy's action and is
    not flagged as failed due to an error. *)
Theorem evaluatePolicy_reports_every_rule : forall policy context s d s',
  evaluatePolicy storeGet storeSet getTime keyExtractor policy context s = (inr d, s') ->
  d_action d = p_id policy /\ d_failedDueToError d = None /\
  map ruleName (d_ruleResults d) = map r_name (p_rules policy) /\
  Forall2 resultFits (p_rules policy) (d_ruleResults d).
Proof.
  intros policy context s d s' H.
  destruct (evaluatePolicy_fits policy context s d s' H) as (Hd & Hfa).
  destruct (combine_results (p_id policy) (d_ruleResults d) (d_keys d)) as (_ & Ha & Hf & _).
  rewrite <- Hd in Ha, Hf. split; [exact Ha|]. split; [exact Hf|]. split; [|exact Hfa].
  clear Hd Ha Hf H. induction Hfa as [|rule r rules rs [Hn _] _ IH]; simpl; [reflexivity|].
  rewrite Hn, IH. reflexivity.
Qed.

(** A policy whose rules are all in challenge mode never blocks: unless the
    store failed ([failedDueToError = true]), [check] allows the request
    and its outcome is not BLOCKED. *)
Theorem check_challenge_only_never_blocks : forall context,
  (forall policy rule, policies (ctx_action context) = Some policy ->
     In rule (p_rules policy) -> r_mode rule = Some Challenge) ->
  forall s,
  let d := fst (check storeGet storeSet getTime keyExtractor policies context s) in
  d_failedDueToError d = Some true \/ (d_allowed d = true /\ d_outcome d <> BLOCKED).
Proof.
  intros context Hmode s d. subst d. unfold check.
  destruct (policies (ctx_action context)) as [policy|] eqn:Hp;
    [|right; split; [reflexivity|discriminate]].
  destruct (evaluatePolicy storeGet storeSet getTime keyExtractor policy context s)
    as [[err|d] s1] eqn:E; [left; reflexivity|right]. simpl.
  destruct (evaluatePolicy_fits policy context s d s1 E) as (Hd & Hfa).
  assert (Hnb : existsb is_blocked (d_ruleResults d) = false).
  { apply not_true_iff_false. intros Hex. apply existsb_exists in Hex as [r [Hin Hb]].
    destruct (Forall2_in_r _ _ _ r Hfa Hin) as (rule & Hrule & _ & _ & Hc).
    apply (Hc (Hmode policy rule eq_refl Hrule)).
    unfold is_blocked in Hb. destruct (outcome r); simpl in Hb; congruence. }
  rewrite Hd. destruct (d_ruleResults d) as [|r0 rs0] eqn:Hrs;
    [split; [reflexivity|discriminate]|].
  destruct (DecisionFacts.combine_fields (p_id policy) (r0 :: rs0) (d_keys d)
              ltac:(discriminate)) as (Ho & Ha & _ & _).
  rewrite Ho, Ha, Hnb. split; [reflexivity|].
  destruct (existsb is_challenge _); discriminate.
Qed.

(** The log line of a decision [evaluatePolicy] returns: [ruleCount] is the
    number of rules of the policy, [failedRules] lists, in rule order, the
    names of the rules whose result is not ALLOWED (challenged rules
    included, although the decision allows them), and it is empty exactly
    when the decision's outcome is ALLOWED. *)
Theorem formatDecisionForLogging_evaluated : forall policy context s d s',
  evaluatePolicy storeGet storeSet getTime keyExtractor policy context s = (inr d, s') ->
  let l := formatDecisionForLogging d in
  ruleCount l = length (p_rules policy) /\
  failedRules l =
    map ruleName (filter (fun r => negb (outcome_eqb (outcome r) ALLOWED)) (d_ruleResults d)) /\
  (failedRules l = [] <-> d_outcome d = ALLOWED).
Proof.
  intros policy context s d s' H l. subst l.
  destruct (evaluatePolicy_fits policy context s d s' H) as (Hd & Hfa).
  unfold formatDecisionForLogging; cbn [ruleCount failedRules].
  assert (Hflt : filter (fun r => negb (allowed r)) (d_ruleResults d) =
                 filter (fun r => negb (outcome_eqb (outcome r) ALLOWED)) (d_ruleResults d)).
  { apply filter_ext_in. intros r Hin.
    destruct (Forall2_in_r _ _ _ r Hfa Hin) as (rule & _ & _ & Hiff & _).
    destruct (allowed r), (outcome r); simpl; try reflexivity;
      destruct Hiff as [H1 H2]; first [discriminate (H1 eq_refl) | discriminate (H2 eq_refl)]. }
  rewrite Hflt. split; [symmetry; apply (Forall2_length Hfa)|]. split; [reflexivity|].
  assert (Hmap : forall l : list RuleResult, map ruleName l = [] <-> l = [])
    by (intros [|? ?]; simpl; split; congruence).
  rewrite Hmap. split.
  - intros Hm. apply filter_negb_nil in Hm.
    rewrite Hd. destruct (d_ruleResults d) as [|r0 rs0]; [reflexivity|].
    destruct (DecisionFacts.combine_fields (p_id policy) (r0 :: rs0) (d_keys d)
                ltac:(discriminate)) as (Ho & _ & _ & _).
    rewrite Ho. pose proof (blocked_or_challenge (r0 :: rs0)) as Hbc. rewrite Hm in Hbc.
    apply orb_false_iff in Hbc as [-> ->]. reflexivity.
  - intros Ho. apply filter_negb_nil. rewrite Hd in Ho.
    destruct (d_ruleResults d) as [|r0 rs0]; [reflexivity|].
    destruct (DecisionFacts.combine_fields (p_id policy) (r0 :: rs0) (d_keys d)
                ltac:(discriminate)) as (Ho' & _ & _ & _).
    rewrite Ho' in Ho. pose proof (blocked_or_challenge (r0 :: rs0)) as Hbc.
    destruct (existsb is_blocked (r0 :: rs0)), (existsb is_challenge (r0 :: rs0));
      cbn [orb] in Hbc; try discriminate.
    apply negb_false_iff. symmetry. exact Hbc.
Qed.

End WithStore.

(** A run of the challenge policy on an exhausted bucket, read at time 500. *)
Lemma evaluatePolicy_reports_every_rule_witness :
  exists d s',
    evaluatePolicy EngineFacts.oneGet EngineFacts.oneSet EngineFacts.clock500 defaultExtract
      EngineFacts.challengePolicy EngineFacts.ipContext (Some EngineFacts.emptyBucket)
      = (inr d, s') /\
    map ruleName (d_ruleResults d) = map r_name (p_rules EngineFacts.challengePolicy).
Proof.
  destruct (evaluatePolicy EngineFacts.oneGet EngineFacts.oneSet EngineFacts.clock500
              defaultExtract EngineFacts.challengePolicy EngineFacts.ipContext
              (Some EngineFacts.emptyBucket)) as [[e|d] s'] eqn:E;
    [vm_compute in E; discriminate|].
  exists d, s'. split; [reflexivity|].
  exact (proj1 (proj2 (proj2 (evaluatePolicy_reports_every_rule EngineFacts.oneGet
    EngineFacts.oneSet EngineFacts.clock500 defaultExtract EngineFacts.challengePolicy
    EngineFacts.ipContext (Some EngineFacts.emptyBucket) d s' E)))).
Defined.

Lemma check_challenge_only_never_blocks_witness :
  (forall policy rule, EngineFacts.onlyChallengePolicy (ctx_action EngineFacts.ipContext) = Some policy ->
     In rule (p_rules policy) -> r_mode rule = Some Challenge) /\
  d_allowed (fst (check EngineFacts.oneGet EngineFacts.oneSet EngineFacts.clock500 defaultExtract
    EngineFacts.onlyChallengePolicy EngineFacts.ipContext (Some EngineFacts.emptyBucket))) = true.
Proof.
  assert (Hm : forall policy rule,
            EngineFacts.onlyChallengePolicy (ctx_action EngineFacts.ipContext) = Some policy ->
            In rule (p_rules policy) -> r_mode rule = Some Challenge).
  { intros policy rule Hp Hin. vm_compute in Hp. injection Hp as <-.
    simpl in Hin. destruct Hin as [<-|[]]. reflexivity. }
  split; [exact Hm|].
  destruct (check_challenge_only_never_blocks EngineFacts.oneGet EngineFacts.oneSet
              EngineFacts.clock500 defaultExtract EngineFacts.onlyChallengePolicy
              EngineFacts.ipContext Hm (Some EngineFacts.emptyBucket)) as [Hf|[Ha _]];
    [vm_compute in Hf; discriminate|exact Ha].
Defined.

Lemma formatDecisionForLogging_evaluated_witness :
  exists d s',
    evaluatePolicy EngineFacts.oneGet EngineFacts.oneSet EngineFacts.clock500 defaultExtract
      EngineFacts.challengePolicy EngineFacts.ipContext (Some EngineFacts.emptyBucket)
      = (inr d, s') /\
    d_allowed d = true /\ failedRules (formatDecisionForLogging d) = ["per_ip"] /\
    ruleCount (formatDecisionForLogging d) = length (p_rules EngineFacts.challengePolicy).
Proof.
  destruct (evaluatePolicy EngineFacts.oneGet EngineFacts.oneSet EngineFacts.clock500
              defaultExtract EngineFacts.challengePolicy EngineFacts.ipContext
              (Some EngineFacts.emptyBucket)) as [[e|d] s'] eqn:E;
    [vm_compute in E; discriminate|].
  pose proof (formatDecisionForLogging_evaluated EngineFacts.oneGet EngineFacts.oneSet
    EngineFacts.clock500 defaultExtract EngineFacts.challengePolicy EngineFacts.ipContext
    (Some EngineFacts.emptyBucket) d s' E) as (Hc & _ & _).
  exists d, s'. split; [reflexivity|].
  vm_compute in E. injection E as <- <-. split; [reflexivity|]. split; [reflexivity|exact Hc].
Defined.

End EngineMore.

(** * More of the Express middleware: the responses of [forAction] *)

Module ExpressMore.

Import KeyBuilder Decision Engine Express.

Lemma msToSeconds_bounds : forall r : Z,
  ((msToSeconds (inject_Z r) - 1) * 1000 < r <= msToSeconds (inject_Z r) * 1000)%Z.
Proof.
  intros r. unfold msToSeconds, Qceiling, Qfloor. simpl.
  rewrite Z.mul_1_r.
  pose proof (Z.mod_pos_bound (- r) 1000 ltac:(lia)).
  pose proof (Z.div_mod (- r) 1000 ltac:(lia)).
  lia.
Qed.

(** How [forAction] answers a decision: it responds 429 exactly when the
    decision is not allowed, with the decision's retryAfterMs and outcome in
    the body, and for a retryAfterMs of magnitude at most [10^15] a
    [Retry-After] of the whole seconds that cover it
    ([(s - 1) * 1000 < retryAfterMs <= s * 1000]); otherwise it calls
    [next()], setting the challenge header exactly when the outcome is
    CHALLENGE. [msToSeconds] takes the exact ceiling; in that range it agrees
    with [Math.ceil] of the double quotient, which is within [2^-12] of
    [ms / 1000] while a non-integer [ms / 1000] is at least [1/1000] away
    from every integer. *)
Theorem handleDecision_response : forall action d,
  match handleDecision action d with
  | Respond429 secs body =>
      d_allowed d = false /\ e_action body = action /\
      e_retryAfterMs body = d_retryAfterMs d /\ e_outcome body = d_outcome d /\
      ((Z.abs (d_retryAfterMs d) <= 10 ^ 15)%Z ->
       ((secs - 1) * 1000 < d_retryAfterMs d <= secs * 1000)%Z)
  | Next h => d_allowed d = true /\ (h <> None <-> d_outcome d = CHALLENGE)
  end.
Proof.
  intros action d. unfold handleDecision.
  destruct (d_allowed d) eqn:A; cbn [negb].
  - destruct (outcome_eqb (d_outcome d) CHALLENGE) eqn:O.
    + split; [reflexivity|]. split; [|discriminate].
      intros _. destruct (d_outcome d); simpl in O; congruence.
    + split; [reflexivity|]. split; [intros H; contradiction H; reflexivity|].
      intros H. rewrite H in O. discriminate.
  - split; [reflexivity|]. split; [reflexivity|]. split; [reflexivity|].
    split; [reflexivity|]. intros _. apply msToSeconds_bounds.
Qed.

(** When the store fails while the policy of the request's action is
    evaluated, the response [forAction] sends through [engine.check]'s error
    decision is the one its own [catch] branch would send for that action:
    [next()] with no header under fail-open, a 429 with [Retry-After: 60]
    and retryAfterMs 60000, BLOCKED, under fail-closed. *)
Theorem forAction_store_error_as_catch :
  forall (St : Type) storeGet storeSet getTime keyExtractor policies context policy
         (s : St) err s1,
  policies (ctx_action context) = Some policy ->
  evaluatePolicy storeGet storeSet getTime keyExtractor policy context s = (inl err, s1) ->
  forActionHandler storeGet storeSet getTime keyExtractor policies context s =
    (catchResponse (ctx_action context) (policies (ctx_action context)), s1).
Proof.
  intros St storeGet storeSet getTime keyExtractor policies context policy s err s1 Hp He.
  unfold forActionHandler, check. rewrite Hp, He.
  unfold catchResponse, createErrorDecision, handleDecision.
  destruct (p_failMode policy); reflexivity.
Qed.

(** The decision [createMissingDimensionDecision] builds goes through
    [forAction] as a 429 with [Retry-After: 0] and retryAfterMs 0 under
    fail-closed, and as [next()] with no header under fail-open; its log
    line lists the rule as failed only under fail-closed. *)
Theorem missingDimension_response : forall action rn dims,
  handleDecision action (createMissingDimensionDecision action rn dims closed) =
    Respond429 0 (mkErrorResponse "RATE_LIMITED" action 0 BLOCKED None) /\
  handleDecision action (createMissingDimensionDecision action rn dims open) = Next None /\
  failedRules (formatDecisionForLogging (createMissingDimensionDecision action rn dims closed))
    = [rn] /\
  failedRules (formatDecisionForLogging (createMissingDimensionDecision action rn dims open))
    = [].
Proof.
  intros action rn dims. repeat split.
Qed.

(** A store that is down, under the challenge policy, fail-closed. *)
Lemma forAction_store_error_as_catch_witness :
  EngineFacts.onlyChallengePolicy (ctx_action EngineFacts.ipContext)
    = Some EngineFacts.challengePolicy /\
  evaluatePolicy EngineFacts.downGet EngineFacts.downSet EngineFacts.clock0 defaultExtract
    EngineFacts.challengePolicy EngineFacts.ipContext tt
    = (inl (mkError "connection refused"), tt) /\
  forActionHandler EngineFacts.downGet EngineFacts.downSet EngineFacts.clock0 defaultExtract
    EngineFacts.onlyChallengePolicy EngineFacts.ipContext tt =
    (Respond429 60 (mkErrorResponse "RATE_LIMITED" "challenge_action" 60000 BLOCKED None), tt).
Proof.
  assert (Hp : EngineFacts.onlyChallengePolicy (ctx_action EngineFacts.ipContext)
                 = Some EngineFacts.challengePolicy) by reflexivity.
  assert (He : evaluatePolicy EngineFacts.downGet EngineFacts.downSet EngineFacts.clock0
                 defaultExtract EngineFacts.challengePolicy EngineFacts.ipContext tt
               = (inl (mkError "connection refused"), tt)) by (vm_compute; reflexivity).
  split; [exact Hp|]. split; [exact He|].
  exact (forAction_store_error_as_catch unit EngineFacts.downGet EngineFacts.downSet
    EngineFacts.clock0 defaultExtract EngineFacts.onlyChallengePolicy EngineFacts.ipContext
    EngineFacts.challengePolicy tt _ tt Hp He).
Defined.

End ExpressMore.
